(** * Route registry and matcher of [@izzyjs/route]

    A shallow embedding of [src/providers/izzy_provider.ts]: the provider's
    server-side registration ([IzzyRouteProvider]), the route resolver
    ([Route]) and the query facade ([Routes]), together with the parts of
    the JavaScript runtime they call ([String.prototype], [RegExp],
    [URLSearchParams]).

    Conventions.
    - A JavaScript string is a [string]: a sequence of code units, each
      below 256.
    - [undefined] / an absent property is [None].
    - A [Record<string, string>] argument is the list of its entries in the
      order [Object.entries] yields them.
    - A [throw] is the [Err] case of [result]. *)

From Stdlib Require Import Ascii String.
From stdpp Require Import base option list strings gmap.

(** ** JavaScript strings *)

Module JsString.

(** [s.startsWith(p)] *)
Definition startsWith (p s : string) : bool := String.prefix p s.

(** [s.indexOf(needle)]: the first position at which [needle] occurs. *)
Fixpoint indexOf (needle s : string) : option nat :=
  if String.prefix needle s then Some 0
  else match s with
       | EmptyString => None
       | String _ s' => S <$> indexOf needle s'
       end.

(** [s.includes(needle)] *)
Definition includes (needle s : string) : bool :=
  bool_decide (is_Some (indexOf needle s)).

(** [s.substring(0, n)] and [s.substring(n)] *)
Fixpoint take (n : nat) (s : string) : string :=
  match n, s with
  | S n', String c s' => String c (take n' s')
  | _, _ => EmptyString
  end.

Fixpoint drop (n : nat) (s : string) : string :=
  match n, s with
  | S n', String _ s' => drop n' s'
  | _, _ => s
  end.

(** [GetSubstitution] of ECMA-262 for a string pattern: there are no
    capture groups, so of the [$] forms only [$$], [$&], [$`] and [$']
    are expanded; a [$] before anything else stands for itself. *)
Fixpoint GetSubstitution (matched before after template : string) : string :=
  match template with
  | EmptyString => EmptyString
  | String c t =>
      if Ascii.eqb c "$"%char then
        match t with
        | EmptyString => String c EmptyString
        | String d rest =>
            if Ascii.eqb d "$"%char then
              String "$"%char (GetSubstitution matched before after rest)
            else if Ascii.eqb d "&"%char then
              matched +:+ GetSubstitution matched before after rest
            else if Ascii.eqb d "`"%char then
              before +:+ GetSubstitution matched before after rest
            else if Ascii.eqb d "'"%char then
              after +:+ GetSubstitution matched before after rest
            else String c (GetSubstitution matched before after t)
        end
      else String c (GetSubstitution matched before after t)
  end.

(** [s.replace(searchValue, replaceValue)] with a string [searchValue]:
    only the first occurrence is replaced. *)
Definition replace (searchValue replaceValue s : string) : string :=
  match indexOf searchValue s with
  | None => s
  | Some pos =>
      let before := take pos s in
      let after := drop (pos + String.length searchValue) s in
      before +:+ GetSubstitution searchValue before after replaceValue +:+ after
  end.

(** [s.replace(/\*/g, '.*')]: every [*] becomes [.*]. *)
Fixpoint replace_stars (s : string) : string :=
  match s with
  | EmptyString => EmptyString
  | String c s' =>
      if Ascii.eqb c "*"%char then String "."%char (String "*"%char (replace_stars s'))
      else String c (replace_stars s')
  end.

(** [s.split(sep)] for a separator of one code unit; the empty string
    splits into one empty part. *)
Fixpoint split (sep : ascii) (s : string) : list string :=
  match s with
  | EmptyString => [EmptyString]
  | String c s' =>
      if Ascii.eqb c sep then EmptyString :: split sep s'
      else match split sep s' with
           | p :: ps => String c p :: ps
           | [] => [String c EmptyString]
           end
  end.

(** [parts.join(sep)] *)
Fixpoint join (sep : string) (parts : list string) : string :=
  match parts with
  | [] => EmptyString
  | [p] => p
  | p :: rest => p +:+ sep +:+ join sep rest
  end.

End JsString.

(** ** Regular expressions

    [new RegExp(source)] is modelled on the fragment of the pattern language
    that the program itself produces from plain names and paths: literal
    code units, [.], a [*] after a literal or a [.], and the capture group
    [([^/]+)].  Any other syntax character ([^ $ \ + ? ( ) [ ] { } |], or a
    [*] with nothing to repeat) puts the source outside the fragment and
    [compile] returns [None]: the outcome of the JavaScript program on such
    a source (a [SyntaxError], or a match by a construct that is not
    modelled) is left open. *)

Module RegExp.

Inductive CharSet :=
| Literal (c : ascii)   (* the code unit itself *)
| Dot                   (* [.]: any code unit but a line terminator *)
| NotSlash.             (* [[^/]] *)

Inductive Term :=
| Atom (a : CharSet)
| Star (a : CharSet)    (* greedy [a*] *)
| Capture.              (* the group [([^/]+)] *)

Definition t := list Term.

Definition is_line_terminator (c : ascii) : bool :=
  Ascii.eqb c "010"%char || Ascii.eqb c "013"%char.

Definition accepts (a : CharSet) (c : ascii) : bool :=
  match a with
  | Literal d => Ascii.eqb d c
  | Dot => negb (is_line_terminator c)
  | NotSlash => negb (Ascii.eqb c "/"%char)
  end.

Definition syntax_characters : string := "^$\.*+?()[]{}|".

Definition is_syntax_character (c : ascii) : bool :=
  JsString.includes (String c EmptyString) syntax_characters.

Definition capture_source : string := "([^/]+)".

(** The parser reads one code unit at a time; [skip] counts the code
    units of the construct just recognised that are still to be passed
    over. *)
Fixpoint parse (skip : nat) (src : string) : option t :=
  match src with
  | EmptyString => Some []
  | String c rest =>
      match skip with
      | S k => parse k rest
      | O =>
          if String.prefix capture_source src then
            cons Capture <$> parse 6 rest
          else if is_syntax_character c && negb (Ascii.eqb c "."%char) then None
          else
            let a := if Ascii.eqb c "."%char then Dot else Literal c in
            if JsString.startsWith "*" rest then cons (Star a) <$> parse 1 rest
            else cons (Atom a) <$> parse 0 rest
      end
  end.

Definition compile (src : string) : option t := parse 0 src.

(** Backtracking matcher.  Each function returns the captures of the
    first successful alternative, as the ECMA-262 matcher does: a
    quantifier first takes as many code units as it can and gives them
    back one at a time. *)
Fixpoint match_star (a : CharSet) (k : string → option (list string))
    (s : string) : option (list string) :=
  match s with
  | String c s' =>
      if accepts a c then
        match match_star a k s' with
        | Some r => Some r
        | None => k s
        end
      else k s
  | EmptyString => k s
  end.

Fixpoint match_capture (k : string → option (list string))
    (taken : string) (s : string) : option (list string) :=
  match s with
  | String c s' =>
      if accepts NotSlash c then
        let taken' := taken +:+ String c EmptyString in
        match match_capture k taken' s' with
        | Some r => Some r
        | None => cons taken' <$> k s'
        end
      else None
  | EmptyString => None
  end.

(** [match_here re s]: [re] matches a prefix of [s]; the result lists
    the captured substrings, group 1 first. *)
Fixpoint match_here (re : t) (s : string) : option (list string) :=
  match re with
  | [] => Some []
  | Atom a :: re' =>
      match s with
      | String c s' => if accepts a c then match_here re' s' else None
      | EmptyString => None
      end
  | Star a :: re' => match_star a (match_here re') s
  | Capture :: re' => match_capture (match_here re') EmptyString s
  end.

(** [re.exec(s)] for a regular expression without flags: the leftmost
    position at which [re] matches; the captures are [values[1..]]. *)
Fixpoint exec (re : t) (s : string) : option (list string) :=
  match match_here re s with
  | Some caps => Some caps
  | None =>
      match s with
      | String _ s' => exec re s'
      | EmptyString => None
      end
  end.

(** [re.test(s)] *)
Definition test (re : t) (s : string) : bool :=
  bool_decide (is_Some (exec re s)).

End RegExp.

(** ** [URLSearchParams]

    [new URLSearchParams(record).toString()]: the
    application/x-www-form-urlencoded serialisation of the entries.  A code
    unit of 128 or more is first encoded in UTF-8 (two bytes). *)

Module URLSearchParams.

Definition t := list (string * string).

Definition hex_digit (n : nat) : ascii :=
  default "0"%char (String.get n "0123456789ABCDEF").

Definition percent_encode (byte : nat) : string :=
  String "%"%char
    (String (hex_digit (byte / 16)) (String (hex_digit (byte mod 16)) EmptyString)).

Definition between (lo hi n : nat) : bool := (lo <=? n) && (n <=? hi).

(** Bytes that the serialiser leaves as they are: [* - . _] and the
    ASCII alphanumerics. *)
Definition is_unreserved (n : nat) : bool :=
  (n =? 42) || (n =? 45) || (n =? 46) || (n =? 95)
  || between 48 57 n || between 65 90 n || between 97 122 n.

Definition serialize_code_unit (c : ascii) : string :=
  let n := nat_of_ascii c in
  if n <? 128 then
    if is_unreserved n then String c EmptyString
    else if n =? 32 then "+"
    else percent_encode n
  else percent_encode (192 + n / 64) +:+ percent_encode (128 + n mod 64).

Fixpoint serialize_string (s : string) : string :=
  match s with
  | EmptyString => EmptyString
  | String c s' => serialize_code_unit c +:+ serialize_string s'
  end.

Definition toString (qs : t) : string :=
  JsString.join "&"
    ((λ kv, serialize_string kv.1 +:+ "=" +:+ serialize_string kv.2) <$> qs).

End URLSearchParams.

(** ** Data model *)

(** [Method] (from [types/manifest.js]): an HTTP method name. *)
Definition Method := string.

(** [SerializedRoute] (from [types/manifest.js]).  The program guards every
    read of [name] and of [params] with an [in] test, so both properties
    may be absent. *)
Module SerializedRoute.
Record t := mk {
  name : option string;
  method : Method;
  path : string;
  params : option (list string);
}.
End SerializedRoute.

(** [GlobalIzzyJs]: the registry object, [{ routes, current }]. *)
Module GlobalIzzyJs.
Record t := mk {
  routes : list SerializedRoute.t;
  current : string;
}.
End GlobalIzzyJs.

(** The global state a call can see.  [window] and [globalThis] are the
    global objects, as maps from the name of a binding to the registry
    object bound to it; [isBrowser] is the answer of [isBrowser()] (from
    [utils/is_browser.js]) and [location_pathname] is
    [window.location.pathname]. *)
Record Globals := {
  isBrowser : bool;
  window : gmap string GlobalIzzyJs.t;
  location_pathname : string;
  globalThis : gmap string GlobalIzzyJs.t;
}.

(** What the program throws.  [message] is the text of the exception. *)
Inductive error :=
| RegistryUnavailableError
    (* the [TypeError] of reading [.routes] of an undefined binding *)
| RouteNotFoundError (routeName : string)
| MissingParametersError (routeName : string) (required : list string)
| RegExpOutsideFragment (source : string).
    (* [new RegExp(source)] on a source that [RegExp.compile] does not model *)

(** The double-quote character, and a string between double quotes. *)
Definition dquote : string := String "034"%char EmptyString.
Definition quoted (s : string) : string := dquote +:+ s +:+ dquote.

Definition message (e : error) : string :=
  match e with
  | RegistryUnavailableError =>
      "Cannot read properties of undefined (reading 'routes')"
  | RouteNotFoundError routeName =>
      "Route with name " +:+ quoted routeName +:+ " not found"
  | MissingParametersError routeName required =>
      "Route " +:+ quoted routeName +:+ " requires parameters: "
        +:+ JsString.join ", " (quoted <$> required)
  | RegExpOutsideFragment source =>
      "Invalid regular expression: /" +:+ source +:+ "/"
  end.

(** Results of calls that may throw. *)
Inductive result (A : Type) :=
| Ok (a : A)
| Err (e : error).
Arguments Ok {A} a.
Arguments Err {A} e.

#[export] Instance result_ret : MRet result := λ A a, Ok a.
#[export] Instance result_bind : MBind result := λ A B f m,
  match m with
  | Ok a => f a
  | Err e => Err e
  end.
#[export] Instance result_fmap : FMap result := λ A B f m,
  match m with
  | Ok a => Ok (f a)
  | Err e => Err e
  end.

(** [new RegExp(source)] *)
Definition RegExp_new (source : string) : result RegExp.t :=
  match RegExp.compile source with
  | Some re => Ok re
  | None => Err (RegExpOutsideFragment source)
  end.

(** [Route]: a resolved route.  The string value of the object is [path]. *)
Module Route.
Record t := mk {
  url : string;
  method : Method;
  params : option (list string);
  name : option string;
  pattern : string;
  path : string;
  qs : URLSearchParams.t;
}.
End Route.

(** [Routes]: the query facade. *)
Module Routes.
Record t := mk {
  currentRoute : string;
  routes : list SerializedRoute.t;
}.
End Routes.

(** ** The provider *)

(** [IzzyRouteProvider.#registerSsrRoutes]: assigns the registry object to
    the binding [__izzy__] of [globalThis]. *)
Definition registerSsrRoutes (routes : list SerializedRoute.t) (g : Globals) : Globals :=
  {| isBrowser := isBrowser g;
     window := window g;
     location_pathname := location_pathname g;
     globalThis := <["__izzy__" := GlobalIzzyJs.mk routes ""]> (globalThis g) |}.

(** [IzzyRouteProvider.ready], from the point where the routes of every
    domain have been serialised: only the domain [root] is registered.
    (The registration of the Edge plugin, which [ready] does next, does not
    touch the registry and is left out.) *)
Definition ready (routesJSON : list (string * list SerializedRoute.t)) (g : Globals) : Globals :=
  match List.find (λ route, bool_decide (route.1 = "root")) routesJSON with
  | Some exists_ => registerSsrRoutes exists_.2 g
  | None => g
  end.

(** ** [Route] *)

(** [Route.izzy()] *)
Definition Route_izzy (g : Globals) : result GlobalIzzyJs.t :=
  if isBrowser g then
    match window g !! "__izzy_route__" with
    | Some o => Ok (GlobalIzzyJs.mk (GlobalIzzyJs.routes o) (location_pathname g))
    | None => Err RegistryUnavailableError
    end
  else
    match globalThis g !! "__izzy_route__" with
    | Some o => Ok (GlobalIzzyJs.mk (GlobalIzzyJs.routes o) (GlobalIzzyJs.current o))
    | None => Err RegistryUnavailableError
    end.

(** [Route.replaceRouteParams(routePath, params)] *)
Definition Route_replaceRouteParams (routePath : string) (params : list (string * string)) : string :=
  foldl (λ acc kv, JsString.replace (":" +:+ kv.1) kv.2 acc) routePath params.

(** [new Routes()] *)
Definition Routes_constructor (g : Globals) : result Routes.t :=
  izzy ← Route_izzy g;
  mret (Routes.mk (GlobalIzzyJs.current izzy) (GlobalIzzyJs.routes izzy)).

(** The lookup [routes.find((r) => 'name' in r && r.name === routeName)]. *)
Definition find_by_name (routeName : string) (routes : list SerializedRoute.t)
    : option SerializedRoute.t :=
  List.find (λ r, bool_decide (SerializedRoute.name r = Some routeName)) routes.

(** [new Route(routeName, params, qs, prefix)]; an absent [qs] is [{}] and
    an absent [prefix] is the empty string. *)
Definition Route_constructor (g : Globals) (routeName : string)
    (params : option (list (string * string)))
    (qs : option URLSearchParams.t) (prefix : option string) : result Route.t :=
  izzy ← Route_izzy g;
  match find_by_name routeName (GlobalIzzyJs.routes izzy) with
  | None => Err (RouteNotFoundError routeName)
  | Some exist_ =>
      let searchParams := default [] qs in
      pattern ←
        match SerializedRoute.params exist_ with
        | Some required =>
            match params with
            | None => Err (MissingParametersError routeName required)
            | Some params => Ok (Route_replaceRouteParams (SerializedRoute.path exist_) params)
            end
        | None => Ok (SerializedRoute.path exist_)
        end;
      let pattern :=
        if bool_decide (URLSearchParams.toString searchParams = "") then pattern
        else pattern +:+ "?" +:+ URLSearchParams.toString searchParams in
      let pattern :=
        if bool_decide (default "" prefix = "") then pattern
        else default "" prefix +:+ pattern in
      mret (Route.mk pattern (SerializedRoute.method exist_) (SerializedRoute.params exist_)
              (SerializedRoute.name exist_) (SerializedRoute.path exist_) pattern searchParams)
  end.

(** [Route.new] returns a [Route] or a [Routes]. *)
Inductive RouteOrRoutes :=
| IsRoute (route : Route.t)
| IsRoutes (routes : Routes.t).

(** The string value of either: [Route.toString] returns [path]; a
    [Routes] has only the [toString] of [Object]. *)
Definition toString (o : RouteOrRoutes) : string :=
  match o with
  | IsRoute route => Route.path route
  | IsRoutes _ => "[object Object]"
  end.

(** A string is falsy exactly when it is empty, and so is [undefined]. *)
Definition falsy (s : option string) : bool :=
  match s with
  | None => true
  | Some s => bool_decide (s = "")
  end.

(** [Route.new(routeName, params, qs, prefix)] *)
Definition Route_new (g : Globals) (routeName : option string)
    (params : option (list (string * string)))
    (qs : option URLSearchParams.t) (prefix : option string) : result RouteOrRoutes :=
  if falsy routeName then IsRoutes <$> Routes_constructor g
  else IsRoute <$> Route_constructor g (default "" routeName) params qs prefix.

(** ** [Routes] *)

(** The result of [Routes.current]: the current path, or a boolean. *)
Inductive RouteNameOrBoolean :=
| CurrentPath (path : string)
| Boolean (b : bool).

(** [routes.current(routeName, params)], called in the global state [g]. *)
Definition Routes_current (g : Globals) (this : Routes.t) (routeName : option string)
    (params : option (list (string * string))) : result RouteNameOrBoolean :=
  if falsy routeName then Ok (CurrentPath (Routes.currentRoute this))
  else
    let routeName := default "" routeName in
    if JsString.includes "*" routeName then
      regex ← RegExp_new (JsString.replace_stars routeName);
      mret (Boolean (RegExp.test regex (Routes.currentRoute this)))
    else
      route ← Route_new g (Some routeName) params None None;
      mret (Boolean (bool_decide (Routes.currentRoute this = toString route))).

(** The callback of both [some] calls of [has]: ['name' in r && p(r.name)]. *)
Definition name_satisfies (p : string → bool) (r : SerializedRoute.t) : bool :=
  match SerializedRoute.name r with
  | Some n => p n
  | None => false
  end.

(** [routes.has(routeName)] *)
Definition Routes_has (this : Routes.t) (routeName : string) : result bool :=
  if JsString.includes "*" routeName then
    regex ← RegExp_new (JsString.replace_stars routeName);
    mret (existsb (name_satisfies (RegExp.test regex)) (Routes.routes this))
  else
    mret (existsb (name_satisfies (λ n, bool_decide (n = routeName))) (Routes.routes this)).

(** The source of the regular expression made of a path:
    [path.split('/').map((p) => (p.startsWith(':') ? '([^/]+)' : p)).join('/')]. *)
Definition path_source (path : string) : string :=
  JsString.join "/"
    ((λ p, if JsString.startsWith ":" p then "([^/]+)" else p)
       <$> JsString.split "/"%char path).

(** [this.routes.find(({ path }) => regex(path).test(this.currentRoute))] *)
Fixpoint find_matching (currentRoute : string) (routes : list SerializedRoute.t)
    : result (option SerializedRoute.t) :=
  match routes with
  | [] => Ok None
  | r :: rest =>
      regex ← RegExp_new (path_source (SerializedRoute.path r));
      if RegExp.test regex currentRoute then Ok (Some r)
      else find_matching currentRoute rest
  end.

(** [params.reduce((acc, param, index) => ({ ...acc, [param]: values[index + 1] }), {})]
    where [captures] is [values] without its first element, the whole
    match; a key whose group does not exist is bound to [undefined]. *)
Fixpoint reduce_params (captures : list string) (index : nat) (params : list string)
    (acc : gmap string (option string)) : gmap string (option string) :=
  match params with
  | [] => acc
  | param :: rest =>
      reduce_params captures (S index) rest (<[param := captures !! index]> acc)
  end.

(** [routes.params] *)
Definition Routes_params (this : Routes.t) : result (gmap string (option string)) :=
  route ← find_matching (Routes.currentRoute this) (Routes.routes this);
  match route with
  | Some route =>
      match SerializedRoute.params route with
      | Some params =>
          regex ← RegExp_new (path_source (SerializedRoute.path route));
          match RegExp.exec regex (Routes.currentRoute this) with
          | None => Ok ∅
          | Some captures => Ok (reduce_params captures 0 params ∅)
          end
      | None => Ok ∅
      end
  | None => Ok ∅
  end.

(** ** What a regular expression matches

    [Matches re m captures]: [re] matches the whole of [m], its groups
    capturing [captures].  This is the declarative reading of the fragment;
    the matcher above is related to it below. *)

Fixpoint all_accept (a : RegExp.CharSet) (w : string) : bool :=
  match w with
  | EmptyString => true
  | String c w' => RegExp.accepts a c && all_accept a w'
  end.

Inductive Matches : RegExp.t → string → list string → Prop :=
| Matches_nil : Matches [] "" []
| Matches_atom a c re m captures :
    RegExp.accepts a c = true →
    Matches re m captures →
    Matches (RegExp.Atom a :: re) (String c m) captures
| Matches_star a w re m captures :
    all_accept a w = true →
    Matches re m captures →
    Matches (RegExp.Star a :: re) (w +:+ m) captures
| Matches_capture w re m captures :
    w ≠ "" →
    all_accept RegExp.NotSlash w = true →
    Matches re m captures →
    Matches (RegExp.Capture :: re) (w +:+ m) (w :: captures).

(** [Occurs re s captures]: [re] matches some substring of [s]. *)
Definition Occurs (re : RegExp.t) (s : string) (captures : list string) : Prop :=
  ∃ before m after, s = before +:+ m +:+ after ∧ Matches re m captures.

(** [unmatched currentRoute d]: the expression made of the path of [d]
    is found nowhere in [currentRoute]. *)
Definition unmatched (currentRoute : string) (d : SerializedRoute.t) : Prop :=
  ∃ re, RegExp.compile (path_source (SerializedRoute.path d)) = Some re
        ∧ RegExp.test re currentRoute = false.

(** ** Plain strings

    A string is plain when none of its code units is a syntax character of
    the pattern language: as the source of a regular expression it stands
    for itself, [literals s]. *)

Fixpoint plain (s : string) : bool :=
  match s with
  | EmptyString => true
  | String c s' => negb (RegExp.is_syntax_character c) && plain s'
  end.

Definition literals (s : string) : RegExp.t :=
  RegExp.Atom ∘ RegExp.Literal <$> list_ascii_of_string s.

(** [without c s]: the code unit [c] does not occur in [s]. *)
Fixpoint without (c : ascii) (s : string) : bool :=
  match s with
  | EmptyString => true
  | String d s' => negb (Ascii.eqb d c) && without c s'
  end.

(** ** Paths, segment by segment

    [is_token p]: the segment [p] is a parameter, [:name].  A path is
    regular when each of its segments is a token or a plain string.
    [path_terms] is the expression that a regular path is compiled to,
    and [Instance segments ws captures] relates the segments of a pattern
    to the segments [ws] of one of its instances: a token stands for one or
    more code units other than a slash, which it captures, and a literal
    segment for itself. *)

Definition is_token (p : string) : bool := JsString.startsWith ":" p.

Definition regular (segments : list string) : Prop :=
  Forall (λ p, is_token p = true ∨ plain p = true) segments.

Definition segment_terms (p : string) : RegExp.t :=
  if is_token p then [RegExp.Capture] else literals p.

Fixpoint path_terms (segments : list string) : RegExp.t :=
  match segments with
  | [] => []
  | [p] => segment_terms p
  | p :: rest => segment_terms p ++ RegExp.Atom (RegExp.Literal "/") :: path_terms rest
  end.

Inductive Instance : list string → list string → list string → Prop :=
| Instance_nil : Instance [] [] []
| Instance_token p segments w ws captures :
    is_token p = true →
    w ≠ "" → without "/" w = true →
    Instance segments ws captures →
    Instance (p :: segments) (w :: ws) (w :: captures)
| Instance_literal p segments ws captures :
    is_token p = false →
    Instance segments ws captures →
    Instance (p :: segments) (p :: ws) captures.

(** The source of the expression of a path, from its segments:
    [path_source path] is [source_of] the segments of [path]. *)
Definition source_of (segments : list string) : string :=
  JsString.join "/" ((λ p, if is_token p then "([^/]+)" else p) <$> segments).

(** ** The reading of [params] in the specification

    The specification lets a path match the current path: each [:segment]
    stands for one or more non-slash characters, which it captures, and
    every other segment stands for itself.  [spec_params] follows these
    words, matching segment by segment over the whole of both paths; it is
    here to be compared with [Routes_params]. *)

Fixpoint spec_segments_match (pattern current : list string) : option (list string) :=
  match pattern, current with
  | [], [] => Some []
  | p :: pattern', c :: current' =>
      if JsString.startsWith ":" p then
        if bool_decide (c = "") then None
        else cons c <$> spec_segments_match pattern' current'
      else if bool_decide (p = c) then spec_segments_match pattern' current'
      else None
  | _, _ => None
  end.

Definition spec_path_match (path current : string) : option (list string) :=
  spec_segments_match (JsString.split "/"%char path) (JsString.split "/"%char current).

Definition spec_params (this : Routes.t) : gmap string (option string) :=
  match List.find (λ r, bool_decide (is_Some (spec_path_match (SerializedRoute.path r)
                                                (Routes.currentRoute this))))
          (Routes.routes this) with
  | Some route =>
      match SerializedRoute.params route,
            spec_path_match (SerializedRoute.path route) (Routes.currentRoute this) with
      | Some params, Some captures => reduce_params captures 0 params ∅
      | _, _ => ∅
      end
  | None => ∅
  end.

(** ** Patterns as templates *)

(** A pattern seen as a template: a list of parts, each a parameter name,
    the value supplied for it and the literal text that follows the
    token.  [pattern_of] is the text of the pattern after its leading
    literal, [filled] the same text with every token replaced by its
    value, [supplied] the parameter mapping in declaration order and
    [declared] the declared names. *)
Definition Part : Type := string * string * string.

Fixpoint pattern_of (parts : list Part) : string :=
  match parts with
  | [] => ""
  | (param, _, literal) :: rest => ":" +:+ param +:+ literal +:+ pattern_of rest
  end.

Fixpoint filled (parts : list Part) : string :=
  match parts with
  | [] => ""
  | (_, value, literal) :: rest => value +:+ literal +:+ filled rest
  end.

Definition supplied (parts : list Part) : list (string * string) :=
  (λ part : Part, (part.1.1, part.1.2)) <$> parts.

Definition declared (parts : list Part) : list string :=
  (λ part : Part, part.1.1) <$> parts.

(** The values hold neither [:] nor [$], the literals no [:]. *)
Definition clean (part : Part) : Prop :=
  without ":" part.1.2 = true ∧ without "$" part.1.2 = true ∧ without ":" part.2 = true.

(** ** Queries

    The calls that an instance of [Routes] answers, and [ask], which makes
    the call in a global state.  [reads_registry q] tells the calls that
    go through the resolver: [current] with a non-empty name without
    wildcard. *)

Inductive Query :=
| AskCurrent (routeName : option string) (params : option (list (string * string)))
| AskHas (routeName : string)
| AskParams.

Inductive Answer :=
| AnswerCurrent (r : RouteNameOrBoolean)
| AnswerHas (b : bool)
| AnswerParams (m : gmap string (option string)).

Definition ask (g : Globals) (this : Routes.t) (q : Query) : result Answer :=
  match q with
  | AskCurrent routeName params => AnswerCurrent <$> Routes_current g this routeName params
  | AskHas routeName => AnswerHas <$> Routes_has this routeName
  | AskParams => AnswerParams <$> Routes_params this
  end.

Definition reads_registry (q : Query) : bool :=
  match q with
  | AskCurrent routeName _ =>
      negb (falsy routeName) && negb (JsString.includes "*" (default "" routeName))
  | _ => false
  end.

(** ** Sample data: the scenario of the specification *)

Definition users_show : SerializedRoute.t :=
  SerializedRoute.mk (Some "users.show") "GET" "/users/:id" (Some ["id"]).

Definition home : SerializedRoute.t :=
  SerializedRoute.mk (Some "home") "GET" "/" None.

(** A server-side global state whose registry holds [routes] and [current]. *)
Definition server (routes : list SerializedRoute.t) (current : string) : Globals :=
  {| isBrowser := false;
     window := ∅;
     location_pathname := "";
     globalThis := {["__izzy_route__" := GlobalIzzyJs.mk routes current]} |}.

Definition scenario : Globals := server [users_show] "/users/42".

(** A server process in which nothing has been bound yet. *)
Definition fresh_server : Globals :=
  {| isBrowser := false; window := ∅; location_pathname := ""; globalThis := ∅ |}.

(** The route that the scenario resolves [users.show] with [id = 42] to. *)
Definition users_42 : Route.t :=
  Route.mk "/users/42" "GET" (Some ["id"]) (Some "users.show") "/users/:id" "/users/42" [].

(** A definition of which only the name matters. *)
Definition named (name : string) : SerializedRoute.t :=
  SerializedRoute.mk (Some name) "GET" "/" None.

(** A definition whose [params] list is there and empty. *)
Definition ping : SerializedRoute.t :=
  SerializedRoute.mk (Some "ping") "GET" "/ping" (Some []).

(** ** Paths with their values

    A path together with the values that resolve it: each segment is a
    fixed text or a parameter with the value supplied for it.
    [pattern_segment] is the segment as the definition writes it,
    [instance_segment] the segment of the resolved path. *)

Inductive Segment :=
| Fixed (text : string)
| Param (name value : string).

Definition pattern_segment (seg : Segment) : string :=
  match seg with
  | Fixed text => text
  | Param name _ => ":" +:+ name
  end.

Definition instance_segment (seg : Segment) : string :=
  match seg with
  | Fixed text => text
  | Param _ value => value
  end.

(** The path of the definition and the path it resolves to. *)
Definition pattern_path (segs : list Segment) : string :=
  JsString.join "/" (pattern_segment <$> segs).

Definition instance_path (segs : list Segment) : string :=
  JsString.join "/" (instance_segment <$> segs).

(** The parameters with their values, in the order of the path. *)
Fixpoint entries (segs : list Segment) : list (string * string) :=
  match segs with
  | [] => []
  | Fixed _ :: rest => entries rest
  | Param name value :: rest => (name, value) :: entries rest
  end.

(** A fixed segment is plain and holds neither [:] nor [/]; a parameter
    name holds no [/]; a value is not empty and holds none of [/], [:]
    and [$]. *)
Definition tidy (seg : Segment) : Prop :=
  match seg with
  | Fixed text =>
      plain text = true ∧ without ":" text = true ∧ without "/" text = true
  | Param name value =>
      without "/" name = true ∧ value ≠ ""
      ∧ without "/" value = true ∧ without ":" value = true ∧ without "$" value = true
  end.

(** ** The provider, from the router

    [ready] from its start: [routes] is [router.toJSON()], the routes of
    each domain in the order of [Object.keys]; the routes are values of a
    type [RouteJSON] that the program does not look into, and
    [serializeRoute] (from [src/serialize_route.js]) is a parameter. *)

Section provider.
Context {RouteJSON : Type} (serializeRoute : RouteJSON → SerializedRoute.t).

Definition routesJSON_of (routes : list (string * list RouteJSON))
    : list (string * list SerializedRoute.t) :=
  (λ entry : string * list RouteJSON, (entry.1, serializeRoute <$> entry.2)) <$> routes.

Definition ready_from_router (routes : list (string * list RouteJSON)) (g : Globals) : Globals :=
  ready (routesJSON_of routes) g.

End provider.

(** ** Safe code units of a query string *)

Definition is_query_safe (c : ascii) : bool :=
  URLSearchParams.is_unreserved (nat_of_ascii c)
  || JsString.includes (String c EmptyString) "+%=&".

Fixpoint all_query_safe (s : string) : bool :=
  match s with
  | EmptyString => true
  | String c s' => is_query_safe c && all_query_safe s'
  end.

(** The route that the scenario resolves [users.show] to with [id = 42],
    the query [page = 1] and the prefix [/api]. *)
Definition users_42_page : Route.t :=
  Route.mk "/api/users/42?page=1" "GET" (Some ["id"]) (Some "users.show") "/users/:id"
    "/api/users/42?page=1" [("page", "1")].

(** A page whose registry holds [routes] and [current], at the location
    [pathname]. *)
Definition browser (routes : list SerializedRoute.t) (current pathname : string) : Globals :=
  {| isBrowser := true;
     window := {["__izzy_route__" := GlobalIzzyJs.mk routes current]};
     location_pathname := pathname;
     globalThis := ∅ |}.

(** A definition without a name. *)
Definition unnamed : SerializedRoute.t :=
  SerializedRoute.mk None "GET" "/users.show" None.

(** * Properties *)

(** ** Examples *)

Example split_path : JsString.split "/"%char "/users/:id" = [""; "users"; ":id"].
Proof. reflexivity. Qed.

Example replace_first : JsString.replace ":id" "42" "/users/:id/:id" = "/users/42/:id".
Proof. reflexivity. Qed.

Example compile_users : RegExp.compile "/users/([^/]+)" =
  Some ((RegExp.Atom ∘ RegExp.Literal <$> ["/"; "u"; "s"; "e"; "r"; "s"; "/"]%char)
        ++ [RegExp.Capture]).
Proof. reflexivity. Qed.

Example compile_wild : RegExp.compile "users..*" =
  Some ((RegExp.Atom ∘ RegExp.Literal <$> ["u"; "s"; "e"; "r"; "s"]%char)
        ++ [RegExp.Atom RegExp.Dot; RegExp.Star RegExp.Dot]).
Proof. reflexivity. Qed.

Example compile_nothing_to_repeat : RegExp.compile "*" = None.
Proof. reflexivity. Qed.

Example exec_users :
  (re ← RegExp.compile "/users/([^/]+)"; RegExp.exec re "/api/users/42/edit") = Some ["42"].
Proof. reflexivity. Qed.

Example qs_page : URLSearchParams.toString [("page", "1"); ("q", "a b/c")] = "page=1&q=a+b%2Fc".
Proof. reflexivity. Qed.

Example scenario_resolve :
  toString <$> Route_new scenario (Some "users.show") (Some [("id", "42")]) None None
  = Ok "/users/42".
Proof. reflexivity. Qed.

Example scenario_current :
  (r ← Routes_constructor scenario;
   a ← Routes_current scenario r (Some "users.show") (Some [("id", "42")]);
   b ← Routes_current scenario r (Some "users.show") (Some [("id", "1")]);
   mret (a, b)) = Ok (Boolean true, Boolean false).
Proof. vm_compute. reflexivity. Qed.

Example scenario_has :
  (r ← Routes_constructor scenario;
   a ← Routes_has r "users.*"; b ← Routes_has r "todos.*"; mret (a, b))
  = Ok (true, false).
Proof. vm_compute. reflexivity. Qed.

Example scenario_params :
  (r ← Routes_constructor scenario; Routes_params r) = Ok {["id" := Some "42"]}.
Proof. vm_compute. reflexivity. Qed.


(** ** Strings *)

#[local] Arguments String.append !_ _ / : simpl nomatch.

Section strings.
Implicit Types (s t u : string) (c : ascii).

Lemma append_nil_r s : s +:+ "" = s.
Proof. induction s as [|c s IH]; simpl; [done | by f_equal]. Qed.

Lemma append_assoc s t u : (s +:+ t) +:+ u = s +:+ t +:+ u.
Proof. induction s as [|c s IH]; simpl; [done | by f_equal]. Qed.

Lemma length_append s t : String.length (s +:+ t) = String.length s + String.length t.
Proof. induction s as [|c s IH]; simpl; [done | by f_equal]. Qed.

Lemma prefix_append s t : String.prefix s (s +:+ t) = true.
Proof.
  induction s as [|c s IH]; simpl; [by destruct t |].
  destruct (ascii_dec c c); [done | congruence].
Qed.

Lemma prefix_split s t : String.prefix s t = true → ∃ u, t = s +:+ u.
Proof.
  revert t. induction s as [|c s IH]; intros t H.
  - by exists t.
  - destruct t as [|d t]; simpl in H; [done |].
    destruct (ascii_dec c d) as [->|]; [| done].
    destruct (IH _ H) as [u ->]. by exists u.
Qed.

Lemma prefix_head c d s t : c ≠ d → String.prefix (String c s) (String d t) = false.
Proof. intros Hne. simpl. by destruct (ascii_dec c d). Qed.

Lemma take_append s t : JsString.take (String.length s) (s +:+ t) = s.
Proof. induction s as [|c s IH]; simpl; [by destruct t | by f_equal]. Qed.

Lemma drop_append s t : JsString.drop (String.length s) (s +:+ t) = t.
Proof. induction s as [|c s IH]; simpl; [by destruct t | done]. Qed.

Lemma indexOf_unfold needle s :
  JsString.indexOf needle s =
    if String.prefix needle s then Some 0
    else match s with
         | EmptyString => None
         | String _ s' => S <$> JsString.indexOf needle s'
         end.
Proof. by destruct s. Qed.

(** Every occurrence is found. *)
Lemma indexOf_occurs needle s t : is_Some (JsString.indexOf needle (s +:+ needle +:+ t)).
Proof.
  induction s as [|c s IH]; rewrite indexOf_unfold.
  - simpl. rewrite prefix_append. eauto.
  - destruct (String.prefix needle _); [eauto |].
    simpl. destruct IH as [i ->]. simpl. eauto.
Qed.

Lemma includes_occurs needle s t : JsString.includes needle (s +:+ needle +:+ t) = true.
Proof. apply bool_decide_eq_true, indexOf_occurs. Qed.

(** What [indexOf] finds is an occurrence. *)
Lemma indexOf_Some needle s i :
  JsString.indexOf needle s = Some i →
  ∃ t u, s = t +:+ needle +:+ u ∧ String.length t = i.
Proof.
  revert i. induction s as [|c s IH]; intros i; rewrite indexOf_unfold.
  - destruct (String.prefix needle "") eqn:Hp; [| done].
    intros [= <-]. destruct (prefix_split _ _ Hp) as [u ->]. by exists "", u.
  - destruct (String.prefix needle (String c s)) eqn:Hp.
    + intros [= <-]. destruct (prefix_split _ _ Hp) as [u ->]. by exists "", u.
    + destruct (JsString.indexOf needle s) as [j|] eqn:Hj; [| done].
      intros [= <-]. destruct (IH _ eq_refl) as (t & u & -> & <-).
      by exists (String c t), u.
Qed.

Lemma includes_split needle s :
  JsString.includes needle s = true → ∃ t u, s = t +:+ needle +:+ u.
Proof.
  intros [i Hi]%bool_decide_eq_true.
  destruct (indexOf_Some _ _ _ Hi) as (t & u & -> & _). eauto.
Qed.

End strings.

(** ** The matcher and what it matches *)

Section matcher.
Implicit Types (re : RegExp.t) (s m w : string) (k : string → option (list string)).

Lemma match_star_sound a k s r :
  RegExp.match_star a k s = Some r →
  ∃ w s', s = w +:+ s' ∧ all_accept a w = true ∧ k s' = Some r.
Proof.
  induction s as [|c s IH]; simpl.
  - intros Hk. by exists "", "".
  - destruct (RegExp.accepts a c) eqn:Hc.
    + destruct (RegExp.match_star a k s) as [r'|] eqn:Hs.
      * intros [= ->]. destruct (IH eq_refl) as (w & s' & -> & Hw & Hk).
        exists (String c w), s'. simpl. by rewrite Hc, Hw.
      * intros Hk. by exists "", (String c s).
    + intros Hk. by exists "", (String c s).
Qed.

Lemma match_star_complete a k w s :
  all_accept a w = true → is_Some (k s) → is_Some (RegExp.match_star a k (w +:+ s)).
Proof.
  intros Hw Hk. induction w as [|c w IH]; simpl in *.
  - destruct s as [|c s]; simpl; [done |].
    destruct (RegExp.accepts a c); [| done].
    by destruct (RegExp.match_star a k s).
  - apply andb_prop in Hw as [-> Hw].
    by destruct (IH Hw) as [r ->].
Qed.

Lemma match_capture_sound k taken s r :
  RegExp.match_capture k taken s = Some r →
  ∃ w s' r', s = w +:+ s' ∧ w ≠ "" ∧ all_accept RegExp.NotSlash w = true
             ∧ k s' = Some r' ∧ r = (taken +:+ w) :: r'.
Proof.
  revert taken r. induction s as [|c s IH]; intros taken r; simpl; [done |].
  destruct (negb (Ascii.eqb c "/")) eqn:Hc; [| done].
  destruct (RegExp.match_capture k _ s) as [r0|] eqn:Hs.
  - intros [= ->]. destruct (IH _ _ Hs) as (w & s' & r' & -> & _ & Hw & Hk & ->).
    exists (String c w), s', r'. simpl. rewrite Hc, Hw, append_assoc. done.
  - destruct (k s) as [r'|] eqn:Hk; [| done].
    intros [= <-]. exists (String c ""), s, r'. simpl. by rewrite Hc.
Qed.

Lemma match_capture_complete k taken w s :
  w ≠ "" → all_accept RegExp.NotSlash w = true → is_Some (k s) →
  is_Some (RegExp.match_capture k taken (w +:+ s)).
Proof.
  intros Hne Hw Hk. revert taken. induction w as [|c w IH]; intros taken; [done |].
  simpl in *. apply andb_prop in Hw as [-> Hw].
  destruct w as [|d w].
  - simpl. destruct (RegExp.match_capture k _ s); [done |].
    destruct Hk as [r ->]. done.
  - by destruct (IH ltac:(done) Hw (taken +:+ String c "")) as [r ->].
Qed.

(** The matcher is sound: what it reports is a match of a prefix. *)
Lemma match_here_sound re s captures :
  RegExp.match_here re s = Some captures →
  ∃ m after, s = m +:+ after ∧ Matches re m captures.
Proof.
  revert s captures. induction re as [|[a|a|] re IH]; intros s captures; simpl.
  - intros [= <-]. exists "", s. split; [done | constructor].
  - destruct s as [|c s]; [done |]. destruct (RegExp.accepts a c) eqn:Hc; [| done].
    intros (m & after & -> & Hm)%IH. exists (String c m), after.
    split; [done | by constructor].
  - intros (w & s' & -> & Hw & (m & after & -> & Hm)%IH)%match_star_sound.
    exists (w +:+ m), after. rewrite append_assoc. split; [done | by constructor].
  - intros (w & s' & r' & -> & Hne & Hw & (m & after & -> & Hm)%IH & ->)%match_capture_sound.
    exists (w +:+ m), after. rewrite append_assoc. split; [done | by constructor].
Qed.

(** The matcher is complete: it finds a match of a prefix whenever there
    is one (its captures are those of the first alternative it tries). *)
Lemma match_here_complete re m captures after :
  Matches re m captures → is_Some (RegExp.match_here re (m +:+ after)).
Proof.
  induction 1 as [|a c re m captures Hc _ IH|a w re m captures Hw _ IH
                  |w re m captures Hne Hw _ IH]; simpl.
  - done.
  - by rewrite Hc.
  - rewrite append_assoc. by apply match_star_complete.
  - rewrite append_assoc. by apply match_capture_complete.
Qed.

Lemma exec_sound re s captures :
  RegExp.exec re s = Some captures → Occurs re s captures.
Proof.
  induction s as [|c s IH]; simpl.
  - destruct (RegExp.match_here re "") eqn:Hm; [| done].
    intros [= ->]. destruct (match_here_sound _ _ _ Hm) as (m & after & Hs & HM).
    by exists "", m, after.
  - destruct (RegExp.match_here re (String c s)) eqn:Hm.
    + intros [= ->]. destruct (match_here_sound _ _ _ Hm) as (m & after & Hs & HM).
      by exists "", m, after.
    + intros (before & m & after & -> & HM)%IH. by exists (String c before), m, after.
Qed.

Lemma exec_complete re s captures :
  Occurs re s captures → is_Some (RegExp.exec re s).
Proof.
  intros (before & m & after & -> & HM).
  induction before as [|c before IH]; simpl.
  - destruct (match_here_complete _ _ _ after HM) as [r Hr].
    destruct (m +:+ after); simpl; by rewrite Hr.
  - destruct (RegExp.match_here re _); [done | apply IH].
Qed.

(** [test] is a search: it holds exactly when the expression matches
    some substring. *)
Lemma test_spec re s :
  RegExp.test re s = true ↔ ∃ captures, Occurs re s captures.
Proof.
  unfold RegExp.test. rewrite bool_decide_eq_true. split.
  - intros [captures Hc]. exists captures. by apply exec_sound.
  - intros [captures Hc]. by eapply exec_complete.
Qed.

End matcher.

(** ** Compiling plain strings and wildcards *)

Section compile.
Implicit Types (re : RegExp.t) (s g : string) (c : ascii).

Lemma parse_unfold c rest :
  RegExp.parse 0 (String c rest) =
    if String.prefix RegExp.capture_source (String c rest) then
      cons RegExp.Capture <$> RegExp.parse 6 rest
    else if RegExp.is_syntax_character c && negb (Ascii.eqb c ".") then None
    else
      let a := if Ascii.eqb c "." then RegExp.Dot else RegExp.Literal c in
      if JsString.startsWith "*" rest then cons (RegExp.Star a) <$> RegExp.parse 1 rest
      else cons (RegExp.Atom a) <$> RegExp.parse 0 rest.
Proof. reflexivity. Qed.

Lemma not_syntax_character c :
  RegExp.is_syntax_character c = false → c ≠ "("%char ∧ c ≠ "."%char ∧ c ≠ "*"%char.
Proof. intros H. repeat split; intros ->; vm_compute in H; discriminate. Qed.

Lemma startsWith_star_plain g rest :
  plain g = true → JsString.startsWith "*" rest = false →
  JsString.startsWith "*" (g +:+ rest) = false.
Proof.
  destruct g as [|c g]; [done |]. intros Hg _. simpl in Hg.
  apply andb_prop in Hg as [Hc _].
  apply negb_true_iff, not_syntax_character in Hc as (_ & _ & Hc).
  apply (prefix_head "*" c "" (g +:+ rest)). congruence.
Qed.

Lemma parse_plain g rest :
  plain g = true → JsString.startsWith "*" rest = false →
  RegExp.parse 0 (g +:+ rest) = (literals g ++.) <$> RegExp.parse 0 rest.
Proof.
  intros Hg Hrest. induction g as [|c g IH].
  - simpl. by destruct (RegExp.parse 0 rest).
  - simpl in Hg. apply andb_prop in Hg as [Hc Hg].
    apply negb_true_iff in Hc.
    destruct (not_syntax_character _ Hc) as (Hparen & Hdot & _).
    change (String c g +:+ rest) with (String c (g +:+ rest)).
    rewrite parse_unfold. unfold RegExp.capture_source.
    rewrite (prefix_head "(" c), Hc by congruence. simpl.
    rewrite (proj2 (Ascii.eqb_neq _ _) Hdot).
    rewrite startsWith_star_plain, IH by done.
    by destruct (RegExp.parse 0 rest).
Qed.

Lemma replace_stars_append s t :
  JsString.replace_stars (s +:+ t) = JsString.replace_stars s +:+ JsString.replace_stars t.
Proof.
  induction s as [|c s IH]; simpl; [done |].
  rewrite IH. by destruct (Ascii.eqb c "*").
Qed.

Lemma replace_stars_plain g : plain g = true → JsString.replace_stars g = g.
Proof.
  induction g as [|c g IH]; simpl; [done |].
  intros [Hc Hg]%andb_prop. apply negb_true_iff, not_syntax_character in Hc as (_ & _ & Hc).
  rewrite (proj2 (Ascii.eqb_neq _ _) Hc), IH; done.
Qed.

(** The wildcard [group.*] compiles to the literals of [group], then any
    code unit, then any number of code units. *)
Lemma compile_group_wildcard g :
  plain g = true →
  RegExp.compile (JsString.replace_stars (g +:+ ".*"))
  = Some (literals g ++ [RegExp.Atom RegExp.Dot; RegExp.Star RegExp.Dot]).
Proof.
  intros Hg. rewrite replace_stars_append, replace_stars_plain by done.
  unfold RegExp.compile. by rewrite parse_plain.
Qed.

Lemma Matches_literals g re m captures :
  Matches (literals g ++ re) m captures ↔ ∃ m', m = g +:+ m' ∧ Matches re m' captures.
Proof.
  revert m. induction g as [|c g IH]; intros m; simpl.
  - split; [by exists m | by intros (m' & -> & H)].
  - split.
    + inversion 1 as [|a d re' m0 caps Hd Hm| |]; subst.
      apply Ascii.eqb_eq in Hd as <-.
      apply IH in Hm as (m' & -> & Hm). by exists m'.
    + intros (m' & -> & Hm). constructor; [apply Ascii.eqb_refl |].
      apply IH. by exists m'.
Qed.

Lemma Matches_dot_star m captures :
  Matches [RegExp.Atom RegExp.Dot; RegExp.Star RegExp.Dot] m captures ↔
  ∃ c w, m = String c w ∧ RegExp.is_line_terminator c = false
         ∧ all_accept RegExp.Dot w = true ∧ captures = [].
Proof.
  split.
  - inversion 1 as [|a c re' m0 caps Hc Hm| |]; subst.
    inversion Hm as [| |a w re' m1 caps Hw Hnil|]; subst.
    inversion Hnil; subst. exists c, w.
    rewrite append_nil_r. by apply negb_true_iff in Hc.
  - intros (c & w & -> & Hc & Hw & ->).
    constructor; [by apply negb_true_iff |].
    rewrite <- (append_nil_r w). constructor; [done | constructor].
Qed.

(** Where the compiled [group.*] is found: in every string that holds
    [group] followed by one more code unit that is not a line
    terminator. *)
Lemma test_group_wildcard g n :
  RegExp.test (literals g ++ [RegExp.Atom RegExp.Dot; RegExp.Star RegExp.Dot]) n = true ↔
  ∃ before c after, n = before +:+ g +:+ String c after
                    ∧ RegExp.is_line_terminator c = false.
Proof.
  rewrite test_spec. split.
  - intros (captures & before & m & after & -> & Hm).
    apply Matches_literals in Hm as (m' & -> & Hm).
    apply Matches_dot_star in Hm as (c & w & -> & Hc & _ & _).
    exists before, c, (w +:+ after). by rewrite append_assoc.
  - intros (before & c & after & -> & Hc).
    exists [], before, (g +:+ String c ""), after. split.
    + by rewrite append_assoc.
    + apply Matches_literals. exists (String c ""). split; [done |].
      apply Matches_dot_star. by exists c, "".
Qed.

End compile.

(** ** [Routes.has] *)

Section has.
Implicit Types (this : Routes.t) (d : SerializedRoute.t).

Lemma existsb_name_satisfies p (routes : list SerializedRoute.t) :
  existsb (name_satisfies p) routes = true ↔
  ∃ d n, d ∈ routes ∧ SerializedRoute.name d = Some n ∧ p n = true.
Proof.
  rewrite existsb_exists. unfold name_satisfies. split.
  - intros (d & Hd%list_elem_of_In & Hp).
    destruct (SerializedRoute.name d) as [n|] eqn:Hn; [| done]. by exists d, n.
  - intros (d & n & Hd%list_elem_of_In & Hn & Hp). exists d. by rewrite Hn.
Qed.

Lemma Routes_has_exact this routeName :
  JsString.includes "*" routeName = false →
  Routes_has this routeName
  = Ok (existsb (name_satisfies (λ n, bool_decide (n = routeName))) (Routes.routes this)).
Proof. unfold Routes_has. by intros ->. Qed.

Lemma Routes_has_wildcard this routeName re :
  JsString.includes "*" routeName = true →
  RegExp.compile (JsString.replace_stars routeName) = Some re →
  Routes_has this routeName
  = Ok (existsb (name_satisfies (RegExp.test re)) (Routes.routes this)).
Proof. unfold Routes_has, RegExp_new. by intros -> ->. Qed.

Lemma includes_star_group group : JsString.includes "*" (group +:+ ".*") = true.
Proof.
  replace (group +:+ ".*") with ((group +:+ ".") +:+ "*" +:+ "")
    by (by rewrite append_assoc).
  apply includes_occurs.
Qed.

End has.

(** C3, as it is stated, fails: [has("group.*")] holds on a list whose
    only name is [subgroup.index], and on one whose only name is [groups],
    although neither name starts with [group.]. *)
Lemma Routes_has_wildcard_not_a_prefix_test :
  Routes_has (Routes.mk "/" [named "subgroup.index"]) "group.*" = Ok true
  ∧ JsString.startsWith "group." "subgroup.index" = false
  ∧ Routes_has (Routes.mk "/" [named "groups"]) "group.*" = Ok true
  ∧ JsString.startsWith "group." "groups" = false.
Proof. by repeat split. Qed.

(** C3, amended.  Without a wildcard, [has(name)] is true exactly when
    some definition has that very name.  With a wildcard, the argument is
    compiled (each [*] to [.*], the rest unescaped) and [has] is true
    exactly when the compiled expression matches a substring of some
    definition's name; for [group.*] with a plain [group] this means: some
    name holds [group] followed by at least one code unit that is not a
    line terminator. *)
Theorem Routes_has_spec (this : Routes.t) :
  (∀ routeName, JsString.includes "*" routeName = false →
     ∃ b, Routes_has this routeName = Ok b
          ∧ (b = true ↔ ∃ d, d ∈ Routes.routes this
                              ∧ SerializedRoute.name d = Some routeName))
  ∧ (∀ routeName re, JsString.includes "*" routeName = true →
       RegExp.compile (JsString.replace_stars routeName) = Some re →
       ∃ b, Routes_has this routeName = Ok b
            ∧ (b = true ↔ ∃ d n captures, d ∈ Routes.routes this
                                          ∧ SerializedRoute.name d = Some n
                                          ∧ Occurs re n captures))
  ∧ (∀ group, plain group = true →
       ∃ b, Routes_has this (group +:+ ".*") = Ok b
            ∧ (b = true ↔ ∃ d before c after, d ∈ Routes.routes this
                 ∧ SerializedRoute.name d = Some (before +:+ group +:+ String c after)
                 ∧ RegExp.is_line_terminator c = false)).
Proof.
  split; [| split].
  - intros routeName Hstar. eexists. split; [by apply Routes_has_exact |].
    rewrite existsb_name_satisfies. split.
    + intros (d & n & Hd & Hn & ->%bool_decide_eq_true). by exists d.
    + intros (d & Hd & Hn). exists d, routeName. by rewrite bool_decide_eq_true.
  - intros routeName re Hstar Hre. eexists. split; [by apply Routes_has_wildcard |].
    rewrite existsb_name_satisfies. split.
    + intros (d & n & Hd & Hn & (captures & Ho)%test_spec). by exists d, n, captures.
    + intros (d & n & captures & Hd & Hn & Ho). exists d, n.
      rewrite test_spec. eauto.
  - intros group Hgroup. eexists. split.
    + apply Routes_has_wildcard; [apply includes_star_group |].
      by apply compile_group_wildcard.
    + rewrite existsb_name_satisfies. split.
      * intros (d & n & Hd & Hn & (before & c & after & -> & Hc)%test_group_wildcard).
        by exists d, before, c, after.
      * intros (d & before & c & after & Hd & Hn & Hc). eexists d, _.
        rewrite test_group_wildcard. eauto 10.
Qed.

Lemma Routes_has_spec_witness :
  ∃ b, Routes_has (Routes.mk "/users/42" [users_show]) ("users" +:+ ".*") = Ok b
       ∧ (b = true ↔ ∃ d before c after, d ∈ [users_show]
            ∧ SerializedRoute.name d = Some (before +:+ "users" +:+ String c after)
            ∧ RegExp.is_line_terminator c = false).
Proof.
  apply (proj2 (proj2 (Routes_has_spec (Routes.mk "/users/42" [users_show])))).
  reflexivity.
Defined.

(** ** The resolver *)

Section resolver.
Implicit Types (g : Globals) (izzy : GlobalIzzyJs.t) (d : SerializedRoute.t).

Lemma find_by_name_None routeName (routes : list SerializedRoute.t) :
  find_by_name routeName routes = None ↔
  ∀ d, d ∈ routes → SerializedRoute.name d ≠ Some routeName.
Proof.
  unfold find_by_name. induction routes as [|r routes IH]; simpl.
  - split; [| done]. intros _ d Hd. by apply not_elem_of_nil in Hd.
  - case_bool_decide as Hr.
    + split; [done |]. intros H. destruct (H r); [left | done].
    + rewrite IH. split.
      * intros H d [-> | Hd]%elem_of_cons; auto.
      * intros H d Hd. apply H. by right.
Qed.

Lemma find_by_name_Some routeName (routes : list SerializedRoute.t) d :
  find_by_name routeName routes = Some d →
  d ∈ routes ∧ SerializedRoute.name d = Some routeName.
Proof.
  unfold find_by_name. intros [Hd Hn%bool_decide_eq_true]%find_some.
  by apply list_elem_of_In in Hd.
Qed.

Lemma Route_new_named g routeName params qs prefix :
  routeName ≠ "" →
  Route_new g (Some routeName) params qs prefix
  = IsRoute <$> Route_constructor g routeName params qs prefix.
Proof. intros Hne. unfold Route_new, falsy. by rewrite bool_decide_eq_false_2. Qed.

Lemma Route_new_unnamed g routeName params qs prefix :
  falsy routeName = true →
  Route_new g routeName params qs prefix = IsRoutes <$> Routes_constructor g.
Proof. unfold Route_new. by intros ->. Qed.

Lemma Route_constructor_not_found g izzy routeName params qs prefix :
  Route_izzy g = Ok izzy →
  find_by_name routeName (GlobalIzzyJs.routes izzy) = None →
  Route_constructor g routeName params qs prefix = Err (RouteNotFoundError routeName).
Proof. unfold Route_constructor. intros -> Hfind. simpl. by rewrite Hfind. Qed.

Lemma Route_constructor_missing g izzy routeName d required qs prefix :
  Route_izzy g = Ok izzy →
  find_by_name routeName (GlobalIzzyJs.routes izzy) = Some d →
  SerializedRoute.params d = Some required →
  Route_constructor g routeName None qs prefix
  = Err (MissingParametersError routeName required).
Proof. unfold Route_constructor. intros -> Hfind Hp. simpl. by rewrite Hfind, Hp. Qed.

(** When the lookup succeeds and the parameters, if required, are there,
    the constructor returns a route. *)
Lemma Route_constructor_found g izzy routeName d params qs prefix :
  Route_izzy g = Ok izzy →
  find_by_name routeName (GlobalIzzyJs.routes izzy) = Some d →
  SerializedRoute.params d = None ∨ is_Some params →
  ∃ route, Route_constructor g routeName params qs prefix = Ok route
           ∧ Route.name route = Some routeName
           ∧ Route.pattern route = SerializedRoute.path d.
Proof.
  unfold Route_constructor. intros -> Hfind Hp. simpl. rewrite Hfind.
  destruct (find_by_name_Some _ _ _ Hfind) as [_ Hname].
  destruct (SerializedRoute.params d) as [required|] eqn:Hreq.
  - destruct Hp as [? | [ps ->]]; [done |]. simpl. eauto.
  - simpl. eauto.
Qed.

(** Without query and prefix, the path of the route is the pattern with
    the supplied parameters substituted. *)
Lemma Route_constructor_path g izzy routeName d params :
  Route_izzy g = Ok izzy →
  find_by_name routeName (GlobalIzzyJs.routes izzy) = Some d →
  Route.path <$> Route_constructor g routeName params None None =
    match SerializedRoute.params d, params with
    | Some required, None => Err (MissingParametersError routeName required)
    | Some _, Some params => Ok (Route_replaceRouteParams (SerializedRoute.path d) params)
    | None, _ => Ok (SerializedRoute.path d)
    end.
Proof.
  unfold Route_constructor. intros -> Hfind. simpl. rewrite Hfind.
  destruct (SerializedRoute.params d) as [required|]; [destruct params |]; done.
Qed.

Lemma includes_message routeName :
  JsString.includes routeName (message (RouteNotFoundError routeName)) = true.
Proof.
  unfold message, quoted.
  replace ("Route with name " +:+ (dquote +:+ routeName +:+ dquote) +:+ " not found")
    with (("Route with name " +:+ dquote) +:+ routeName +:+ (dquote +:+ " not found"))
    by (by rewrite !append_assoc).
  apply includes_occurs.
Qed.

End resolver.

(** C10.  [Route.new] takes the empty string as it takes no name at all:
    it returns [new Routes()], so the result is a facade whenever the
    registry is there and is never a route-not-found failure; every
    non-empty name goes to the resolver. *)
Theorem Route_new_empty_name (g : Globals) (params : option (list (string * string)))
    (qs : option URLSearchParams.t) (prefix : option string) :
  Route_new g (Some "") params qs prefix = Route_new g None params qs prefix
  ∧ Route_new g (Some "") params qs prefix = IsRoutes <$> Routes_constructor g
  ∧ (∀ izzy, Route_izzy g = Ok izzy →
       Route_new g (Some "") params qs prefix
       = Ok (IsRoutes (Routes.mk (GlobalIzzyJs.current izzy) (GlobalIzzyJs.routes izzy))))
  ∧ (∀ routeName, Route_new g (Some "") params qs prefix ≠ Err (RouteNotFoundError routeName))
  ∧ (∀ routeName, routeName ≠ "" →
       Route_new g (Some routeName) params qs prefix
       = IsRoute <$> Route_constructor g routeName params qs prefix).
Proof.
  repeat split.
  - intros izzy Hizzy. rewrite Route_new_unnamed by done.
    unfold Routes_constructor. by rewrite Hizzy.
  - intros routeName. rewrite Route_new_unnamed by done.
    unfold Routes_constructor, Route_izzy.
    destruct (isBrowser g); [destruct (window g !! _) | destruct (globalThis g !! _)]; done.
  - intros routeName. apply Route_new_named.
Qed.

Lemma Route_new_empty_name_witness :
  Route_new scenario (Some "") None None None
  = Ok (IsRoutes (Routes.mk "/users/42" [users_show])).
Proof.
  apply (proj1 (proj2 (proj2 (Route_new_empty_name scenario None None None)))
           (GlobalIzzyJs.mk [users_show] "/users/42")).
  reflexivity.
Defined.

(** C4, as it is stated, fails at the empty name: no definition of the
    scenario is named by the empty string, and yet resolving it returns
    the facade. *)
Lemma empty_name_is_not_looked_up :
  find_by_name "" [users_show] = None
  ∧ Route_new scenario (Some "") (Some [("id", "42")]) None None
    = Ok (IsRoutes (Routes.mk "/users/42" [users_show])).
Proof. by split. Qed.

(** C4, amended.  For every snapshot and every non-empty name,
    [Route.new(name, ...)] looks the name up by equality with the [name]
    of the definitions; when no definition has that name it fails with
    the route-not-found error, whose message holds the name, and it fails
    so in no other case. *)
Theorem Route_new_not_found (g : Globals) (izzy : GlobalIzzyJs.t) (routeName : string)
    (params : option (list (string * string)))
    (qs : option URLSearchParams.t) (prefix : option string) :
  routeName ≠ "" →
  Route_izzy g = Ok izzy →
  ((∀ d, d ∈ GlobalIzzyJs.routes izzy → SerializedRoute.name d ≠ Some routeName) →
     Route_new g (Some routeName) params qs prefix = Err (RouteNotFoundError routeName))
  ∧ (∀ other, Route_new g (Some routeName) params qs prefix = Err (RouteNotFoundError other) →
       other = routeName
       ∧ ∀ d, d ∈ GlobalIzzyJs.routes izzy → SerializedRoute.name d ≠ Some routeName)
  ∧ JsString.includes routeName (message (RouteNotFoundError routeName)) = true.
Proof.
  intros Hne Hizzy. rewrite Route_new_named by done. split; [| split].
  - intros Hnone%find_by_name_None.
    by erewrite Route_constructor_not_found.
  - intros other. unfold Route_constructor. rewrite Hizzy. simpl.
    destruct (find_by_name routeName _) as [d|] eqn:Hfind.
    + destruct (SerializedRoute.params d); [destruct params |]; done.
    + intros [= ->]. split; [done |]. by apply find_by_name_None.
  - apply includes_message.
Qed.

Lemma Route_new_not_found_witness :
  Route_new scenario (Some "users.edit") None None None
  = Err (RouteNotFoundError "users.edit").
Proof.
  refine (proj1 (Route_new_not_found scenario (GlobalIzzyJs.mk [users_show] "/users/42")
                   "users.edit" None None None _ _) _).
  - discriminate.
  - reflexivity.
  - intros d ->%list_elem_of_singleton. discriminate.
Defined.

(** C5, as it is stated, fails for a definition that declares an empty
    list of parameters: the list is there, the guard of the constructor
    takes it as true, and resolving the route with no parameters supplied
    raises the missing-parameters error, with no name to list. *)
Lemma empty_params_list_requires_parameters :
  SerializedRoute.params ping = Some []
  ∧ Route_new (server [ping] "/") (Some "ping") None None None
    = Err (MissingParametersError "ping" [])
  ∧ message (MissingParametersError "ping" [])
    = "Route " +:+ quoted "ping" +:+ " requires parameters: ".
Proof. by repeat split. Qed.

(** C5, amended.  When the definition that the lookup yields has a
    [params] list, a non-empty one in particular, resolving it with no
    parameters supplied fails with the missing-parameters error, whose
    message lists the names between quotes in the order of the list; when
    the definition has no [params] property, no resolution fails with
    that error.  The same holds of [Route.new], which hands every
    non-empty name to the constructor. *)
Theorem Route_constructor_missing_parameters (g : Globals) (izzy : GlobalIzzyJs.t)
    (routeName : string) (d : SerializedRoute.t)
    (qs : option URLSearchParams.t) (prefix : option string) :
  Route_izzy g = Ok izzy →
  find_by_name routeName (GlobalIzzyJs.routes izzy) = Some d →
  (∀ required, SerializedRoute.params d = Some required →
     Route_constructor g routeName None qs prefix
     = Err (MissingParametersError routeName required)
     ∧ (routeName ≠ "" →
        Route_new g (Some routeName) None qs prefix
        = Err (MissingParametersError routeName required))
     ∧ message (MissingParametersError routeName required)
       = "Route " +:+ quoted routeName +:+ " requires parameters: "
           +:+ JsString.join ", " (quoted <$> required))
  ∧ (SerializedRoute.params d = None →
     ∀ params other required,
       Route_constructor g routeName params qs prefix
       ≠ Err (MissingParametersError other required)
       ∧ Route_new g (Some routeName) params qs prefix
         ≠ Err (MissingParametersError other required)).
Proof.
  intros Hizzy Hfind. split.
  - intros required Hreq.
    pose proof (Route_constructor_missing g izzy routeName d required qs prefix
                  Hizzy Hfind Hreq) as Hmissing.
    repeat split; [done |].
    intros Hne. by rewrite Route_new_named, Hmissing.
  - intros Hnone params other required.
    destruct (Route_constructor_found g izzy routeName d params qs prefix Hizzy Hfind)
      as (route & Hroute & _); [by left |].
    split; [by rewrite Hroute |].
    unfold Route_new. destruct (falsy (Some routeName)).
    + unfold Routes_constructor. by rewrite Hizzy.
    + simpl. by rewrite Hroute.
Qed.

Lemma Route_constructor_missing_parameters_witness :
  Route_constructor scenario "users.show" None None None
  = Err (MissingParametersError "users.show" ["id"])
  ∧ message (MissingParametersError "users.show" ["id"])
    = "Route " +:+ quoted "users.show" +:+ " requires parameters: " +:+ quoted "id".
Proof.
  destruct (proj1 (Route_constructor_missing_parameters scenario
                     (GlobalIzzyJs.mk [users_show] "/users/42") "users.show" users_show
                     None None eq_refl eq_refl) ["id"] eq_refl) as (H1 & _ & H2).
  split; [exact H1 | exact H2].
Defined.

(** ** Parameter substitution *)

Section substitution.
Implicit Types (s t u key value : string) (c : ascii) (parts : list Part).

Lemma without_append c s t : without c (s +:+ t) = without c s && without c t.
Proof. induction s as [|d s IH]; simpl; [done |]. by rewrite IH, andb_assoc. Qed.

Lemma drop_add n m s : JsString.drop (n + m) s = JsString.drop m (JsString.drop n s).
Proof.
  revert s. induction n as [|n IH]; intros s; simpl; [done |].
  destruct s as [|c s]; [by destruct m | apply IH].
Qed.

(** A value without [$] is substituted as it is. *)
Lemma GetSubstitution_plain matched before after value :
  without "$" value = true →
  JsString.GetSubstitution matched before after value = value.
Proof.
  induction value as [|c value IH]; simpl; [done |].
  intros [Hc Hvalue]%andb_prop. apply negb_true_iff in Hc. rewrite Hc.
  by rewrite IH.
Qed.

(** The position that [indexOf] returns is the first one. *)
Lemma indexOf_first needle s i t u :
  JsString.indexOf needle s = Some i → s = t +:+ needle +:+ u → i ≤ String.length t.
Proof.
  revert i t. induction s as [|c s IH]; intros i t; rewrite indexOf_unfold.
  - destruct (String.prefix needle ""); [| done]. intros [= <-] _. lia.
  - destruct (String.prefix needle (String c s)) eqn:Hp; [intros [= <-] _; lia |].
    destruct (JsString.indexOf needle s) as [j|] eqn:Hj; [| done].
    intros [= <-] Hs. destruct t as [|d t].
    + simpl in Hs. rewrite Hs, prefix_append in Hp. done.
    + simpl in Hs. injection Hs as -> Hs. simpl.
      apply le_n_S. by eapply IH.
Qed.

Lemma replace_absent needle value s :
  JsString.indexOf needle s = None → JsString.replace needle value s = s.
Proof. unfold JsString.replace. by intros ->. Qed.

Lemma replace_first_occurrence needle value s i :
  without "$" value = true →
  JsString.indexOf needle s = Some i →
  ∃ before after,
    s = before +:+ needle +:+ after
    ∧ String.length before = i
    ∧ (∀ t u, s = t +:+ needle +:+ u → String.length before ≤ String.length t)
    ∧ JsString.replace needle value s = before +:+ value +:+ after.
Proof.
  intros Hvalue Hi. destruct (indexOf_Some _ _ _ Hi) as (before & after & -> & Hlen).
  exists before, after. repeat split; [done | |].
  - intros t u Hs. rewrite Hlen. by eapply indexOf_first.
  - unfold JsString.replace. rewrite Hi, <- Hlen, take_append, drop_add, drop_append.
    by rewrite drop_append, GetSubstitution_plain.
Qed.

(** Behind a text without [c], a needle that starts with [c] occurs first
    where the text ends. *)
Lemma indexOf_behind c needle s t :
  without c s = true →
  JsString.indexOf (String c needle) (s +:+ String c needle +:+ t) = Some (String.length s).
Proof.
  intros Hs. induction s as [|d s IH]; rewrite indexOf_unfold.
  - change ("" +:+ String c needle +:+ t) with (String c needle +:+ t).
    by rewrite prefix_append.
  - simpl in Hs. apply andb_prop in Hs as [Hd Hs].
    apply negb_true_iff, Ascii.eqb_neq in Hd.
    change (String d s +:+ String c needle +:+ t)
      with (String d (s +:+ String c needle +:+ t)).
    rewrite prefix_head by congruence. by rewrite IH.
Qed.

Lemma indexOf_token key s t :
  without ":" s = true →
  JsString.indexOf (":" +:+ key) (s +:+ (":" +:+ key) +:+ t) = Some (String.length s).
Proof. apply (indexOf_behind ":" key). Qed.

Lemma replace_token key value s t :
  without ":" s = true → without "$" value = true →
  JsString.replace (":" +:+ key) value (s +:+ (":" +:+ key) +:+ t) = s +:+ value +:+ t.
Proof.
  intros Hs Hvalue.
  destruct (replace_first_occurrence _ value _ _ Hvalue (indexOf_token key s t Hs))
    as (before & after & Heq & Hlen & _ & ->).
  assert (before = s) as ->.
  { apply (f_equal (JsString.take (String.length s))) in Heq.
    rewrite take_append, <- Hlen, take_append in Heq. done. }
  apply String.app_inj, String.app_inj in Heq. by rewrite Heq.
Qed.

Lemma replaceRouteParams_cons routePath key value (rest : list (string * string)) :
  Route_replaceRouteParams routePath ((key, value) :: rest)
  = Route_replaceRouteParams (JsString.replace (":" +:+ key) value routePath) rest.
Proof. reflexivity. Qed.

Lemma replaceRouteParams_template s parts :
  without ":" s = true → Forall clean parts →
  Route_replaceRouteParams (s +:+ pattern_of parts) (supplied parts) = s +:+ filled parts
  ∧ without ":" (s +:+ filled parts) = true.
Proof.
  intros Hs Hparts. revert s Hs.
  induction Hparts as [|[[param value] literal] parts (Hv & Hd & Hl) _ IH]; intros s Hs.
  - simpl. by rewrite append_nil_r.
  - change (pattern_of (_ :: parts))
      with ((":" +:+ param) +:+ literal +:+ pattern_of parts).
    change (supplied (_ :: parts)) with ((param, value) :: supplied parts).
    change (filled (_ :: parts)) with (value +:+ literal +:+ filled parts).
    rewrite replaceRouteParams_cons, replace_token by done.
    specialize (IH (s +:+ value +:+ literal)). rewrite !append_assoc in IH.
    apply IH. simpl in Hv, Hd, Hl. by rewrite !without_append, Hs, Hv, Hl.
Qed.

End substitution.

(** C6, as it is stated, fails.  A value that is a substitution pattern of
    [String.prototype.replace] is expanded, not copied: with [$&] the token
    is replaced by itself and stays in the resolved path.  And a token that
    the pattern holds twice is replaced once. *)
Lemma replaceRouteParams_leaves_a_token :
  Route_replaceRouteParams "/users/:id" [("id", "$&")] = "/users/:id"
  ∧ toString <$> Route_new scenario (Some "users.show") (Some [("id", "$&")]) None None
    = Ok "/users/:id"
  ∧ Route_replaceRouteParams "/a/:id/b/:id" [("id", "7")] = "/a/7/b/:id".
Proof. by repeat split. Qed.

(** C6, amended.  [replaceRouteParams] goes through the supplied entries
    in their order, each step being one [replace] on the string so far.
    A step whose token [:key] does not occur changes nothing; a step whose
    value holds no [$] replaces the first occurrence of [:key], and only
    that one, by the value.  Consequently, for a pattern whose tokens are
    its declared parameters in declaration order, separated by literals
    without [:], resolving with exactly those parameters, in that order
    and with values that hold neither [:] nor [$], yields the pattern with
    every token replaced by its value, in which no [:] is left. *)
Theorem Route_replaceRouteParams_spec :
  (∀ routePath, Route_replaceRouteParams routePath [] = routePath)
  ∧ (∀ routePath key value rest,
       Route_replaceRouteParams routePath ((key, value) :: rest)
       = Route_replaceRouteParams (JsString.replace (":" +:+ key) value routePath) rest)
  ∧ (∀ key value s,
       JsString.indexOf (":" +:+ key) s = None →
       JsString.replace (":" +:+ key) value s = s)
  ∧ (∀ key value s i,
       without "$" value = true →
       JsString.indexOf (":" +:+ key) s = Some i →
       ∃ before after,
         s = before +:+ (":" +:+ key) +:+ after
         ∧ String.length before = i
         ∧ (∀ t u, s = t +:+ (":" +:+ key) +:+ u → String.length before ≤ String.length t)
         ∧ JsString.replace (":" +:+ key) value s = before +:+ value +:+ after)
  ∧ (∀ literal parts,
       without ":" literal = true → Forall clean parts →
       Route_replaceRouteParams (literal +:+ pattern_of parts) (supplied parts)
       = literal +:+ filled parts
       ∧ without ":" (literal +:+ filled parts) = true)
  ∧ (∀ g izzy routeName d literal parts,
       Route_izzy g = Ok izzy →
       find_by_name routeName (GlobalIzzyJs.routes izzy) = Some d →
       SerializedRoute.path d = literal +:+ pattern_of parts →
       SerializedRoute.params d = Some (declared parts) →
       without ":" literal = true → Forall clean parts →
       Route.path <$> Route_constructor g routeName (Some (supplied parts)) None None
       = Ok (literal +:+ filled parts)).
Proof.
  repeat split.
  - intros key value s. apply replace_absent.
  - intros key value s i. apply replace_first_occurrence.
  - by apply replaceRouteParams_template.
  - by apply replaceRouteParams_template.
  - intros g izzy routeName d literal parts Hizzy Hfind Hpath Hparams Hliteral Hparts.
    erewrite Route_constructor_path by done. rewrite Hparams, Hpath.
    f_equal. by apply replaceRouteParams_template.
Qed.

Lemma Route_replaceRouteParams_spec_witness :
  Route_replaceRouteParams ("/users/" +:+ pattern_of [("id", "42", "/posts/"); ("post", "7", "")])
    (supplied [("id", "42", "/posts/"); ("post", "7", "")])
  = "/users/" +:+ filled [("id", "42", "/posts/"); ("post", "7", "")]
  ∧ without ":" ("/users/" +:+ filled [("id", "42", "/posts/"); ("post", "7", "")]) = true.
Proof.
  apply (proj1 (proj2 (proj2 (proj2 (proj2 Route_replaceRouteParams_spec))))).
  - reflexivity.
  - repeat constructor.
Defined.

(** ** The registry accessor *)

Section accessor.
Implicit Types (g : Globals) (o : GlobalIzzyJs.t).

Lemma Route_izzy_unpopulated g :
  (if isBrowser g then window g else globalThis g) !! "__izzy_route__" = None →
  Route_izzy g = Err RegistryUnavailableError.
Proof. unfold Route_izzy. destruct (isBrowser g); by intros ->. Qed.

Lemma Route_izzy_browser g o :
  isBrowser g = true → window g !! "__izzy_route__" = Some o →
  Route_izzy g = Ok (GlobalIzzyJs.mk (GlobalIzzyJs.routes o) (location_pathname g)).
Proof. unfold Route_izzy. by intros -> ->. Qed.

Lemma Route_izzy_server g o :
  isBrowser g = false → globalThis g !! "__izzy_route__" = Some o →
  Route_izzy g = Ok o.
Proof. unfold Route_izzy. intros -> ->. by destruct o. Qed.

Lemma Route_izzy_total g :
  (∃ izzy, Route_izzy g = Ok izzy) ∨ Route_izzy g = Err RegistryUnavailableError.
Proof.
  unfold Route_izzy.
  destruct (isBrowser g); [destruct (window g !! _) | destruct (globalThis g !! _)]; eauto.
Qed.

End accessor.

(** C2, on the code: the registration of the provider binds [__izzy__],
    and the accessor reads [__izzy_route__]; so the registration changes
    nothing of what the accessor returns, and in a server process where
    only the provider has run, the accessor fails. *)
Theorem registerSsrRoutes_is_not_read :
  (∀ routes g, Route_izzy (registerSsrRoutes routes g) = Route_izzy g)
  ∧ Route_izzy (registerSsrRoutes [users_show] fresh_server) = Err RegistryUnavailableError
  ∧ Route_izzy (ready [("root", [users_show])] fresh_server) = Err RegistryUnavailableError.
Proof.
  repeat split. intros routes g. unfold Route_izzy, registerSsrRoutes. simpl.
  by rewrite lookup_insert_ne.
Qed.

(** ** [Routes.current] *)

Section current.
Implicit Types (g : Globals) (this : Routes.t) (params : option (list (string * string))).

Lemma Routes_current_unnamed g this routeName params :
  falsy routeName = true →
  Routes_current g this routeName params = Ok (CurrentPath (Routes.currentRoute this)).
Proof. unfold Routes_current. by intros ->. Qed.

Lemma Routes_current_wildcard g this routeName params :
  JsString.includes "*" routeName = true →
  Routes_current g this (Some routeName) params
  = (regex ← RegExp_new (JsString.replace_stars routeName);
     mret (Boolean (RegExp.test regex (Routes.currentRoute this)))).
Proof.
  intros Hstar. unfold Routes_current, falsy.
  destruct routeName as [|c routeName]; [done |].
  rewrite bool_decide_eq_false_2 by done. simpl default. by rewrite Hstar.
Qed.

Lemma Routes_current_named g this routeName params :
  routeName ≠ "" →
  JsString.includes "*" routeName = false →
  Routes_current g this (Some routeName) params
  = (route ← Route_constructor g routeName params None None;
     mret (Boolean (bool_decide (Routes.currentRoute this = Route.path route)))).
Proof.
  intros Hne Hstar. unfold Routes_current, falsy.
  rewrite bool_decide_eq_false_2 by done. simpl default.
  rewrite Hstar, Route_new_named by done.
  by destruct (Route_constructor g routeName params None None).
Qed.

Lemma Routes_constructor_captures g this :
  Routes_constructor g = Ok this →
  ∃ izzy, Route_izzy g = Ok izzy
          ∧ Routes.currentRoute this = GlobalIzzyJs.current izzy
          ∧ Routes.routes this = GlobalIzzyJs.routes izzy.
Proof.
  unfold Routes_constructor. destruct (Route_izzy g) as [izzy|]; [| done].
  intros [= <-]. by exists izzy.
Qed.

End current.

(** C7, as it is stated, fails at the empty string: it holds no [*], and
    [current] answers with the current path instead of a boolean. *)
Lemma Routes_current_empty_name_is_no_test :
  JsString.includes "*" "" = false
  ∧ Routes_current scenario (Routes.mk "/users/42" [users_show]) (Some "") None
    = Ok (CurrentPath "/users/42").
Proof. by split. Qed.

(** C7, amended.  For a non-empty argument: if it holds a [*], [current]
    compiles it, each [*] turned into [.*] and the rest kept as it is, and
    returns whether the expression matches a substring of the captured
    current path; if it holds no [*], [current] resolves the name and the
    parameters with the resolver and returns whether the resolved path is
    the captured current path, a failure of the resolver being passed on. *)
Theorem Routes_current_spec (g : Globals) (this : Routes.t) (routeName : string)
    (params : option (list (string * string))) :
  routeName ≠ "" →
  (JsString.includes "*" routeName = true →
     Routes_current g this (Some routeName) params
     = (regex ← RegExp_new (JsString.replace_stars routeName);
        mret (Boolean (RegExp.test regex (Routes.currentRoute this))))
     ∧ ∀ re, RegExp.compile (JsString.replace_stars routeName) = Some re →
         ∃ b, Routes_current g this (Some routeName) params = Ok (Boolean b)
              ∧ (b = true ↔ ∃ captures, Occurs re (Routes.currentRoute this) captures))
  ∧ (JsString.includes "*" routeName = false →
     (∀ route, Route_constructor g routeName params None None = Ok route →
        ∃ b, Routes_current g this (Some routeName) params = Ok (Boolean b)
             ∧ (b = true ↔ Route.path route = Routes.currentRoute this))
     ∧ (∀ e, Route_constructor g routeName params None None = Err e →
          Routes_current g this (Some routeName) params = Err e)).
Proof.
  intros Hne. split; intros Hstar.
  - rewrite Routes_current_wildcard by done. split; [done |].
    intros re Hre. unfold RegExp_new. rewrite Hre. eexists. split; [done |].
    apply test_spec.
  - rewrite Routes_current_named by done. split.
    + intros route ->. eexists. split; [done |].
      rewrite bool_decide_eq_true. split; congruence.
    + by intros e ->.
Qed.

Lemma Routes_current_spec_witness :
  (∃ b, Routes_current scenario (Routes.mk "/users/42" [users_show])
          (Some "users.show") (Some [("id", "42")]) = Ok (Boolean b)
        ∧ (b = true ↔ Route.path users_42 = "/users/42"))
  ∧ Routes_current scenario (Routes.mk "/users/42" [users_show]) (Some "users.*") None
    = (regex ← RegExp_new "users..*"; mret (Boolean (RegExp.test regex "/users/42"))).
Proof.
  split.
  - refine (proj1 (proj2 (Routes_current_spec scenario (Routes.mk "/users/42" [users_show])
                            "users.show" (Some [("id", "42")]) _) _) users_42 _).
    + discriminate.
    + reflexivity.
    + reflexivity.
  - refine (proj1 (proj1 (Routes_current_spec scenario (Routes.mk "/users/42" [users_show])
                            "users.*" None _) _)).
    + discriminate.
    + reflexivity.
Defined.

(** C8, as it is stated, fails for [current(name, params)]: the instance
    made in the scenario answers [true], and after the registry has been
    bound to an empty route list the same call on the same instance fails,
    because the resolver reads the registry anew. *)
Lemma Routes_current_reads_the_registry_anew :
  Routes_constructor scenario = Ok (Routes.mk "/users/42" [users_show])
  ∧ Routes_current scenario (Routes.mk "/users/42" [users_show])
      (Some "users.show") (Some [("id", "42")]) = Ok (Boolean true)
  ∧ Routes_current (server [] "/users/42") (Routes.mk "/users/42" [users_show])
      (Some "users.show") (Some [("id", "42")]) = Err (RouteNotFoundError "users.show").
Proof. by repeat split. Qed.

(** C8, amended.  An instance holds the route list and the current path
    that the accessor returned when it was made.  Whatever the global
    state is later, [current()] returns the captured path, and every call
    that does not go through the resolver ([current()], [current] with a
    wildcard, [has], [params]) answers as it did when the instance was
    made.  But [current(name, params)] without a wildcard compares the
    captured path with the name resolved in the registry as it is at the
    call. *)
Theorem Routes_snapshot (g : Globals) (this : Routes.t) :
  Routes_constructor g = Ok this →
  (∃ izzy, Route_izzy g = Ok izzy
           ∧ Routes.currentRoute this = GlobalIzzyJs.current izzy
           ∧ Routes.routes this = GlobalIzzyJs.routes izzy)
  ∧ ∀ g',
      (∀ params,
         Routes_current g' this None params = Ok (CurrentPath (Routes.currentRoute this)))
      ∧ (∀ q, reads_registry q = false → ask g' this q = ask g this q)
      ∧ (∀ routeName params,
           reads_registry (AskCurrent (Some routeName) params) = true →
           Routes_current g' this (Some routeName) params
           = (route ← Route_constructor g' routeName params None None;
              mret (Boolean (bool_decide (Routes.currentRoute this = Route.path route))))).
Proof.
  intros Hthis. split; [by apply Routes_constructor_captures |].
  intros g'. repeat split.
  - intros [routeName params | |] Hq; [| done..]. simpl in *.
    destruct (falsy routeName) eqn:Hfalsy.
    + by rewrite !Routes_current_unnamed.
    + destruct routeName as [routeName|]; [| done].
      apply negb_false_iff in Hq. by rewrite !Routes_current_wildcard.
  - intros routeName params [Hfalsy Hstar]%andb_prop.
    apply negb_true_iff in Hfalsy, Hstar.
    apply Routes_current_named; [| done].
    intros ->. done.
Qed.

Lemma Routes_snapshot_witness :
  Routes_current (server [] "/elsewhere") (Routes.mk "/users/42" [users_show]) None None
  = Ok (CurrentPath "/users/42").
Proof.
  apply (proj2 (Routes_snapshot scenario (Routes.mk "/users/42" [users_show]) eq_refl)
           (server [] "/elsewhere")).
Defined.

(** C9, as it is stated, fails.  The empty string is on no route list, and
    [current] answers it with the current path, without an error.  And a
    name that the captured list lacks is resolved when the registry has
    it at the call. *)
Lemma Routes_current_absent_name_without_error :
  Routes_constructor (server [] "/users/42") = Ok (Routes.mk "/users/42" [])
  ∧ Routes_current (server [] "/users/42") (Routes.mk "/users/42" []) (Some "") None
    = Ok (CurrentPath "/users/42")
  ∧ Routes_current scenario (Routes.mk "/users/42" [])
      (Some "users.show") (Some [("id", "42")]) = Ok (Boolean true).
Proof. by repeat split. Qed.

(** C9, amended.  For a non-empty name without a wildcard that no
    definition of the registry has at the call (the captured list, as long
    as the registry has not been bound anew), [current] does not return
    [false]: the route-not-found error of the resolver comes out of it.
    For a name that the registry has, with its parameters supplied or
    none required, [current] returns a boolean. *)
Theorem Routes_current_not_found (g : Globals) (this : Routes.t) (izzy : GlobalIzzyJs.t)
    (routeName : string) (params : option (list (string * string))) :
  routeName ≠ "" →
  JsString.includes "*" routeName = false →
  Route_izzy g = Ok izzy →
  ((∀ d, d ∈ GlobalIzzyJs.routes izzy → SerializedRoute.name d ≠ Some routeName) →
     Routes_current g this (Some routeName) params = Err (RouteNotFoundError routeName))
  ∧ (Routes_constructor g = Ok this →
     (∀ d, d ∈ Routes.routes this → SerializedRoute.name d ≠ Some routeName) →
     Routes_current g this (Some routeName) params = Err (RouteNotFoundError routeName))
  ∧ (∀ d, find_by_name routeName (GlobalIzzyJs.routes izzy) = Some d →
       SerializedRoute.params d = None ∨ is_Some params →
       ∃ b, Routes_current g this (Some routeName) params = Ok (Boolean b)).
Proof.
  intros Hne Hstar Hizzy. rewrite Routes_current_named by done.
  assert ((∀ d, d ∈ GlobalIzzyJs.routes izzy → SerializedRoute.name d ≠ Some routeName) →
          (route ← Route_constructor g routeName params None None;
           mret (Boolean (bool_decide (Routes.currentRoute this = Route.path route))))
          = Err (RouteNotFoundError routeName)) as Habsent.
  { intros Hnone%find_by_name_None. by erewrite Route_constructor_not_found. }
  repeat split.
  - done.
  - intros (izzy' & Hizzy' & _ & Hroutes)%Routes_constructor_captures.
    rewrite Hroutes. by replace izzy' with izzy by congruence.
  - intros d Hfind Hparams.
    destruct (Route_constructor_found g izzy routeName d params None None Hizzy Hfind Hparams)
      as (route & -> & _). eauto.
Qed.

Lemma Routes_current_not_found_witness :
  Routes_current scenario (Routes.mk "/users/42" [users_show]) (Some "users.edit") None
  = Err (RouteNotFoundError "users.edit").
Proof.
  refine (proj1 (Routes_current_not_found scenario (Routes.mk "/users/42" [users_show])
                   (GlobalIzzyJs.mk [users_show] "/users/42") "users.edit" None _ _ _) _).
  - discriminate.
  - reflexivity.
  - reflexivity.
  - intros d ->%list_elem_of_singleton. discriminate.
Defined.

(** ** Regular paths *)

Section paths.
Implicit Types (s p w : string) (segments ws captures : list string) (re : RegExp.t).

Lemma split_nonempty sep s : JsString.split sep s ≠ [].
Proof.
  destruct s as [|c s]; simpl; [done |].
  destruct (Ascii.eqb c sep); [done |]. by destruct (JsString.split sep s).
Qed.

Lemma join_cons sep p q rest :
  JsString.join sep (p :: q :: rest) = p +:+ sep +:+ JsString.join sep (q :: rest).
Proof. reflexivity. Qed.

(** Joining what [split] returns gives the string back. *)
Lemma join_split sep s :
  JsString.join (String sep "") (JsString.split sep s) = s.
Proof.
  induction s as [|c s IH]; simpl; [done |].
  pose proof (split_nonempty sep s) as Hne.
  destruct (Ascii.eqb_spec c sep) as [-> | Hc].
  - destruct (JsString.split sep s) as [|q rest]; [done |].
    rewrite join_cons, IH. done.
  - destruct (JsString.split sep s) as [|q rest]; [done |].
    destruct rest as [|q' rest].
    + simpl in *. by rewrite IH.
    + rewrite join_cons in *. by rewrite <- IH.
Qed.

Lemma split_without sep s : Forall (λ p, without sep p = true) (JsString.split sep s).
Proof.
  induction s as [|c s IH]; simpl; [by repeat constructor |].
  destruct (Ascii.eqb c sep) eqn:Hc; [by constructor |].
  destruct (JsString.split sep s) as [|q rest]; [by repeat constructor; simpl; rewrite Hc |].
  inversion IH; subst. constructor; [| done]. simpl. by rewrite Hc.
Qed.

Lemma parse_capture rest :
  RegExp.parse 0 ("([^/]+)" +:+ rest) = cons RegExp.Capture <$> RegExp.parse 0 rest.
Proof.
  change ("([^/]+)" +:+ rest) with (String "(" ("[^/]+)" +:+ rest)).
  rewrite parse_unfold.
  assert (String.prefix RegExp.capture_source (String "(" ("[^/]+)" +:+ rest)) = true)
    as -> by apply (prefix_append "([^/]+)" rest).
  reflexivity.
Qed.


Lemma path_source_split path :
  path_source path = source_of (JsString.split "/" path).
Proof. reflexivity. Qed.

Lemma startsWith_star_source segments :
  regular segments → JsString.startsWith "*" (source_of segments) = false.
Proof.
  unfold source_of. intros Hreg.
  destruct Hreg as [|p segments Hp Hreg]; [done |].
  assert (∀ rest, JsString.startsWith "*" rest = false →
            JsString.startsWith "*" ((if is_token p then "([^/]+)" else p) +:+ rest) = false)
    as Hhead.
  { intros rest Hrest. destruct (is_token p) eqn:Htoken; [done |].
    destruct Hp as [? | Hp]; [congruence |]. by apply startsWith_star_plain. }
  set (head := if is_token p then "([^/]+)" else p) in *.
  destruct segments as [|q segments].
  - change (JsString.startsWith "*" head = false).
    rewrite <- (append_nil_r head). by apply Hhead.
  - by apply (Hhead ("/" +:+ _)).
Qed.

(** A regular path compiles to [path_terms]. *)
Lemma compile_regular segments :
  regular segments → RegExp.compile (source_of segments) = Some (path_terms segments).
Proof.
  unfold RegExp.compile. induction 1 as [|p segments Hp Hreg IH]; [done |].
  assert (∀ rest terms,
            JsString.startsWith "*" rest = false →
            RegExp.parse 0 rest = Some terms →
            RegExp.parse 0 ((if is_token p then "([^/]+)" else p) +:+ rest)
            = Some (segment_terms p ++ terms)) as Hhead.
  { intros rest terms Hstar Hrest. unfold segment_terms.
    destruct (is_token p) eqn:Htoken.
    - by rewrite parse_capture, Hrest.
    - destruct Hp as [? | Hp]; [congruence |]. by rewrite parse_plain, Hrest. }
  set (head := if is_token p then "([^/]+)" else p) in *.
  destruct segments as [|q segments].
  - change (RegExp.parse 0 head = Some (segment_terms p)).
    rewrite <- (append_nil_r head), <- (app_nil_r (segment_terms p)).
    by apply Hhead.
  - change (source_of (p :: q :: segments))
      with (head +:+ "/" +:+ source_of (q :: segments)).
    change (path_terms (p :: q :: segments))
      with (segment_terms p ++ literals "/" ++ path_terms (q :: segments)).
    apply Hhead; [done |].
    rewrite (parse_plain "/") by (done || by apply startsWith_star_source).
    by rewrite IH.
Qed.


Lemma all_accept_NotSlash w : all_accept RegExp.NotSlash w = without "/" w.
Proof. induction w as [|c w IH]; simpl; [done | by rewrite IH]. Qed.

Lemma Matches_nil_iff m captures : Matches [] m captures ↔ m = "" ∧ captures = [].
Proof. split; [by inversion 1 | intros [-> ->]; constructor]. Qed.

Lemma Matches_slash re m captures :
  Matches (RegExp.Atom (RegExp.Literal "/") :: re) m captures ↔
  ∃ m', m = "/" +:+ m' ∧ Matches re m' captures.
Proof. apply (Matches_literals "/" re). Qed.

Lemma Matches_capture_iff re m captures :
  Matches (RegExp.Capture :: re) m captures ↔
  ∃ w m' captures', m = w +:+ m' ∧ w ≠ "" ∧ without "/" w = true
                    ∧ Matches re m' captures' ∧ captures = w :: captures'.
Proof.
  split.
  - inversion 1 as [| | |w re' m' captures' Hne Hw Hm]; subst.
    exists w, m', captures'. by rewrite <- all_accept_NotSlash.
  - intros (w & m' & captures' & -> & Hne & Hw & Hm & ->).
    constructor; [done | by rewrite all_accept_NotSlash | done].
Qed.

(** What the expression of one segment matches, followed by [re]. *)
Lemma Matches_segment p re m captures :
  Matches (segment_terms p ++ re) m captures ↔
  ∃ w m' own tail, m = w +:+ m' ∧ captures = own ++ tail
                   ∧ Instance [p] [w] own ∧ Matches re m' tail.
Proof.
  unfold segment_terms. destruct (is_token p) eqn:Htoken.
  - change ([RegExp.Capture] ++ re) with (RegExp.Capture :: re).
    rewrite Matches_capture_iff. split.
    + intros (w & m' & tail & -> & Hne & Hw & Hm & ->). exists w, m', [w], tail.
      repeat split; [| done]. by apply Instance_token; [..| constructor].
    + intros (w & m' & own & tail & -> & -> & Hi & Hm). exists w, m', tail.
      inversion Hi as [|? ? ? ? own' _ Hne Hw Hnil|]; subst; [| congruence].
      by inversion Hnil; subst.
  - rewrite Matches_literals. split.
    + intros (m' & -> & Hm). exists p, m', [], captures.
      repeat split; [| done]. apply Instance_literal; [done | constructor].
    + intros (w & m' & own & tail & -> & -> & Hi & Hm).
      inversion Hi as [|? ? ? ? own' Ht|? ? ? own' _ Hnil]; subst; [congruence |].
      inversion Hnil; subst. by exists m'.
Qed.

Lemma Instance_length segments ws captures :
  Instance segments ws captures → length ws = length segments.
Proof. induction 1; simpl; congruence. Qed.

Lemma Instance_cons p segments w ws own captures :
  Instance [p] [w] own → Instance segments ws captures →
  Instance (p :: segments) (w :: ws) (own ++ captures).
Proof.
  inversion 1 as [|? ? ? ? ? Ht Hne Hw Hnil|? ? ? ? Ht Hnil]; subst;
    inversion Hnil; subst; intros Hrest.
  - by apply Instance_token.
  - by apply Instance_literal.
Qed.

Lemma Instance_uncons p segments w ws captures :
  Instance (p :: segments) (w :: ws) captures →
  ∃ own tail, captures = own ++ tail ∧ Instance [p] [w] own ∧ Instance segments ws tail.
Proof.
  inversion 1 as [|? ? ? ? tail Ht Hne Hw Hrest|? ? ? tail Ht Hrest]; subst.
  - exists [w], tail. repeat split; [| done]. by apply Instance_token; [..| constructor].
  - exists [], captures. repeat split; [| done]. apply Instance_literal; [done | constructor].
Qed.

(** The expression of a path matches exactly the instances of the path:
    its segments, each token replaced by what it captures, joined by
    slashes. *)
Lemma Matches_path_terms segments m captures :
  segments ≠ [] →
  Matches (path_terms segments) m captures ↔
  ∃ ws, Instance segments ws captures ∧ m = JsString.join "/" ws.
Proof.
  intros Hne. revert m captures.
  induction segments as [|p segments IH]; [done |]. clear Hne. intros m captures.
  destruct segments as [|q segments].
  - simpl path_terms. rewrite <- (app_nil_r (segment_terms p)), Matches_segment. split.
    + intros (w & m' & own & tail & -> & -> & Hi & [-> ->]%Matches_nil_iff).
      exists [w]. by rewrite app_nil_r, append_nil_r.
    + intros (ws & Hi & ->).
      destruct ws as [|w [|w' ws]]; [by inversion Hi | | by apply Instance_length in Hi].
      exists w, "", captures, []. rewrite app_nil_r, append_nil_r.
      repeat split; [done | constructor].
  - change (path_terms (p :: q :: segments))
      with (segment_terms p ++ RegExp.Atom (RegExp.Literal "/") :: path_terms (q :: segments)).
    rewrite Matches_segment. split.
    + intros (w & m' & own & tail & -> & -> & Hi & (m'' & -> & Hm)%Matches_slash).
      apply IH in Hm as (ws & Hws & ->); [| done].
      exists (w :: ws). split; [by apply Instance_cons |].
      destruct ws as [|w' ws]; [by apply Instance_length in Hws |]. done.
    + intros (ws & Hi & ->).
      destruct ws as [|w ws]; [by inversion Hi |].
      apply Instance_uncons in Hi as (own & tail & -> & Hown & Htail).
      destruct ws as [|w' ws]; [by apply Instance_length in Htail |].
      exists w, ("/" +:+ JsString.join "/" (w' :: ws)), own, tail.
      repeat split; [done |]. apply Matches_slash. eexists. split; [done |].
      apply IH; [done |]. by exists (w' :: ws).
Qed.

(** For a regular path, [test] holds exactly when an instance of the path
    lies somewhere in the current path. *)
Lemma test_regular_path path currentRoute :
  regular (JsString.split "/" path) →
  ∃ re, RegExp.compile (path_source path) = Some re
        ∧ (RegExp.test re currentRoute = true ↔
           ∃ before ws after captures,
             Instance (JsString.split "/" path) ws captures
             ∧ currentRoute = before +:+ JsString.join "/" ws +:+ after).
Proof.
  intros Hreg. exists (path_terms (JsString.split "/" path)).
  split; [by apply compile_regular |].
  rewrite test_spec. unfold Occurs. split.
  - intros (captures & before & m & after & -> & Hm).
    apply Matches_path_terms in Hm as (ws & Hws & ->); [| apply split_nonempty].
    by exists before, ws, after, captures.
  - intros (before & ws & after & captures & Hws & ->).
    exists captures, before, (JsString.join "/" ws), after. split; [done |].
    apply Matches_path_terms; [apply split_nonempty | by exists ws].
Qed.

Lemma split_id sep w : without sep w = true → JsString.split sep w = [w].
Proof.
  induction w as [|c w IH]; simpl; [done |].
  intros [Hc Hw]%andb_prop. apply negb_true_iff in Hc. by rewrite Hc, IH.
Qed.

Lemma split_append_sep sep w s :
  without sep w = true →
  JsString.split sep (w +:+ String sep s) = w :: JsString.split sep s.
Proof.
  induction w as [|c w IH]; simpl.
  - by rewrite Ascii.eqb_refl.
  - intros [Hc Hw]%andb_prop. apply negb_true_iff in Hc. by rewrite Hc, IH.
Qed.

(** Splitting what [join] returns gives the parts back, when no part
    holds the separator. *)
Lemma split_join sep ws :
  ws ≠ [] → Forall (λ w, without sep w = true) ws →
  JsString.split sep (JsString.join (String sep "") ws) = ws.
Proof.
  intros Hne Hws. induction Hws as [|w ws Hw Hws IH]; [done |].
  destruct ws as [|w' ws].
  - by apply split_id.
  - rewrite join_cons. change (String sep "" +:+ ?s) with (String sep s).
    rewrite split_append_sep by done. by rewrite IH.
Qed.

Lemma Instance_without segments ws captures :
  Forall (λ p, without "/" p = true) segments →
  Instance segments ws captures →
  Forall (λ w, without "/" w = true) ws.
Proof.
  intros Hsegments. induction 1 as [| |p segments ws captures Ht _ IH].
  - constructor.
  - inversion Hsegments; subst. constructor; auto.
  - inversion Hsegments; subst. constructor; auto.
Qed.

Lemma spec_segments_match_Instance segments cs captures :
  Forall (λ c, without "/" c = true) cs →
  spec_segments_match segments cs = Some captures ↔ Instance segments cs captures.
Proof.
  intros Hcs. revert segments captures.
  induction Hcs as [|c cs Hc Hcs IH]; intros [|p segments] captures; simpl.
  - split; [intros [= <-]; constructor | by inversion 1].
  - split; [done | by inversion 1].
  - split; [done | by inversion 1].
  - fold (is_token p). destruct (is_token p) eqn:Htoken.
    + case_bool_decide as Hempty.
      * split; [done |]. inversion 1; subst; congruence.
      * destruct (spec_segments_match segments cs) as [tail|] eqn:Htail; simpl.
        -- split.
           ++ intros [= <-]. apply IH in Htail. by apply Instance_token.
           ++ inversion 1 as [|? ? ? ? tail' _ _ _ Htail'|]; subst; [| congruence].
              apply IH in Htail'. congruence.
        -- split; [done |].
           inversion 1 as [|? ? ? ? tail' _ _ _ Htail'|]; subst; [| congruence].
           apply IH in Htail'. congruence.
    + case_bool_decide as Heq.
      * subst c. rewrite IH. split; [by apply Instance_literal |].
        inversion 1; subst; [congruence | done].
      * split; [done |]. inversion 1; subst; congruence.
Qed.

(** The reading of the specification: an instance of the path is the
    whole of the current path. *)
Lemma spec_path_match_whole path currentRoute captures :
  spec_path_match path currentRoute = Some captures ↔
  ∃ ws, Instance (JsString.split "/" path) ws captures
        ∧ currentRoute = JsString.join "/" ws.
Proof.
  unfold spec_path_match. split.
  - intros Hspec. exists (JsString.split "/" currentRoute).
    split; [| by rewrite (join_split "/")].
    by apply spec_segments_match_Instance; [apply split_without |].
  - intros (ws & Hws & ->).
    assert (Forall (λ w, without "/" w = true) ws) as Hfree
      by (eapply Instance_without; [apply split_without | done]).
    rewrite (split_join "/" ws); [by apply spec_segments_match_Instance | | done].
    intros ->. apply Instance_length in Hws.
    by destruct (JsString.split "/" path) eqn:Hsplit; [apply split_nonempty in Hsplit |].
Qed.

(** So every path that matches as a whole is found by the search. *)
Lemma spec_path_match_found path currentRoute captures re :
  regular (JsString.split "/" path) →
  RegExp.compile (path_source path) = Some re →
  spec_path_match path currentRoute = Some captures →
  RegExp.test re currentRoute = true.
Proof.
  intros Hreg Hre (ws & Hws & ->)%spec_path_match_whole.
  destruct (test_regular_path path (JsString.join "/" ws) Hreg) as (re' & Hre' & Htest).
  replace re with re' by congruence. apply Htest.
  exists "", ws, "", captures. by rewrite append_nil_r.
Qed.

End paths.

(** ** [Routes.params] *)

Section params.
Implicit Types (this : Routes.t) (d : SerializedRoute.t) (captures params : list string)
  (acc : gmap string (option string)).

Lemma reduce_params_absent captures index params acc p :
  p ∉ params → reduce_params captures index params acc !! p = acc !! p.
Proof.
  revert index acc. induction params as [|q params IH]; intros index acc Hp; simpl; [done |].
  apply not_elem_of_cons in Hp as [Hpq Hp]. rewrite IH by done.
  by rewrite lookup_insert_ne.
Qed.

(** The name at position [j] is bound to the capture of index [j], unless
    the same name is declared again further on. *)
Lemma reduce_params_lookup captures index params acc j p :
  params !! j = Some p → p ∉ drop (S j) params →
  reduce_params captures index params acc !! p = Some (captures !! (index + j)).
Proof.
  revert index acc j. induction params as [|q params IH]; intros index acc j; [done |].
  destruct j as [|j]; simpl.
  - intros [= ->] Hp. rewrite drop_0 in Hp.
    rewrite reduce_params_absent, lookup_insert_eq, Nat.add_0_r; done.
  - intros Hj Hp. rewrite (IH _ _ j) by done. do 2 f_equal. lia.
Qed.

Lemma reduce_params_dom captures index params acc :
  dom (reduce_params captures index params acc) = list_to_set params ∪ dom acc.
Proof.
  revert index acc. induction params as [|q params IH]; intros index acc; simpl.
  - by rewrite (left_id_L ∅ (∪)).
  - rewrite IH, dom_insert_L.
    by rewrite (assoc_L (∪)), (comm_L (∪) (list_to_set params)).
Qed.

Lemma find_matching_none currentRoute (routes : list SerializedRoute.t) :
  Forall (unmatched currentRoute) routes → find_matching currentRoute routes = Ok None.
Proof.
  induction 1 as [|d routes (re & Hre & Htest) _ IH]; simpl; [done |].
  unfold RegExp_new. rewrite Hre. simpl. by rewrite Htest.
Qed.

Lemma find_matching_first currentRoute (before after : list SerializedRoute.t) d re :
  Forall (unmatched currentRoute) before →
  RegExp.compile (path_source (SerializedRoute.path d)) = Some re →
  RegExp.test re currentRoute = true →
  find_matching currentRoute (before ++ d :: after) = Ok (Some d).
Proof.
  intros Hbefore Hre Htest.
  induction Hbefore as [|d' before (re' & Hre' & Htest') _ IH]; simpl.
  - unfold RegExp_new. rewrite Hre. simpl. by rewrite Htest.
  - unfold RegExp_new. rewrite Hre'. simpl. by rewrite Htest'.
Qed.

(** What a group captures: one or more code units, none of them a slash. *)
Lemma Matches_captures re m captures :
  Matches re m captures →
  Forall (λ w, w ≠ "" ∧ all_accept RegExp.NotSlash w = true) captures.
Proof. induction 1; auto. Qed.

End params.

(** C1, as it is stated, fails.  With the route [/] listed first and the
    current path [/users/42], the first definition whose path matches the
    current path is [users.show], whose parameter is [42]; but the
    expression [/] is found in every path, so [params] stops at the first
    definition and returns the empty mapping.  And with the current path
    [/users/42/edit], which [/users/:id] does not match, [params] finds
    [/users/([^/]+)] inside it and returns [id = 42]. *)
Lemma Routes_params_searches_inside_the_path :
  spec_params (Routes.mk "/users/42" [home; users_show]) = {["id" := Some "42"]}
  ∧ Routes_params (Routes.mk "/users/42" [home; users_show]) = Ok ∅
  ∧ spec_params (Routes.mk "/users/42/edit" [users_show]) = ∅
  ∧ Routes_params (Routes.mk "/users/42/edit" [users_show]) = Ok {["id" := Some "42"]}.
Proof. repeat split; vm_compute; reflexivity. Qed.

(** C1, amended.  [params] takes the first definition, in the order of
    the list, whose path, with every segment that starts with [:] replaced
    by the group [([^/]+)] and every other segment kept as source text of
    the expression, is found somewhere in the current path: a search, not
    a match of the whole path.  For a path whose other segments are plain,
    this means that the current path holds, anywhere, the segments of the
    path joined by slashes, each [:segment] standing for one or more code
    units other than a slash.  If the definition found has a [params]
    list, the result binds each declared name to the capture of the same
    index of the leftmost match, a non-empty part of the current path
    without slash ([undefined] when the expression has no such group; the
    last binding wins when a name is declared twice).  The result is empty
    when the expression of no definition is found, or when the first one
    found has no [params]. *)
Theorem Routes_params_spec (this : Routes.t) :
  (Forall (unmatched (Routes.currentRoute this)) (Routes.routes this) →
     Routes_params this = Ok ∅)
  ∧ (∀ before d after re,
       Routes.routes this = before ++ d :: after →
       Forall (unmatched (Routes.currentRoute this)) before →
       RegExp.compile (path_source (SerializedRoute.path d)) = Some re →
       RegExp.test re (Routes.currentRoute this) = true →
       ∃ captures,
         RegExp.exec re (Routes.currentRoute this) = Some captures
         ∧ Occurs re (Routes.currentRoute this) captures
         ∧ Forall (λ w, w ≠ "" ∧ without "/" w = true) captures
         ∧ match SerializedRoute.params d with
           | None => Routes_params this = Ok ∅
           | Some params =>
               ∃ obj, Routes_params this = Ok obj
                      ∧ dom obj = list_to_set params
                      ∧ ∀ i p, params !! i = Some p → p ∉ drop (S i) params →
                               obj !! p = Some (captures !! i)
           end)
  ∧ (∀ d, regular (JsString.split "/" (SerializedRoute.path d)) →
       ∃ re, RegExp.compile (path_source (SerializedRoute.path d)) = Some re
             ∧ (RegExp.test re (Routes.currentRoute this) = true ↔
                ∃ before ws after captures,
                  Instance (JsString.split "/" (SerializedRoute.path d)) ws captures
                  ∧ Routes.currentRoute this = before +:+ JsString.join "/" ws +:+ after)).
Proof.
  split; [| split].
  - intros Hnone. unfold Routes_params. by rewrite find_matching_none.
  - intros before d after re Hroutes Hbefore Hre Htest.
    pose proof Htest as [captures Hexec]%bool_decide_eq_true.
    pose proof (exec_sound _ _ _ Hexec) as Hoccurs.
    exists captures. repeat split; [done | done | |].
    + destruct Hoccurs as (_ & m & _ & _ & Hm).
      eapply Forall_impl; [by eapply Matches_captures |].
      intros w [Hw Hslash]. by rewrite <- all_accept_NotSlash.
    + unfold Routes_params. rewrite Hroutes.
      erewrite find_matching_first by done. simpl.
      destruct (SerializedRoute.params d) as [params|]; [| done].
      unfold RegExp_new. rewrite Hre. simpl. rewrite Hexec.
      eexists. split; [done |]. split.
      * by rewrite reduce_params_dom, dom_empty_L, (right_id_L ∅ (∪)).
      * intros i p Hi Hp. by rewrite (reduce_params_lookup _ _ _ _ i).
  - intros d. apply test_regular_path.
Qed.

Lemma Routes_params_spec_witness :
  ∃ captures,
    RegExp.exec (literals "/users/" ++ [RegExp.Capture]) "/users/42" = Some captures
    ∧ Occurs (literals "/users/" ++ [RegExp.Capture]) "/users/42" captures
    ∧ Forall (λ w, w ≠ "" ∧ without "/" w = true) captures
    ∧ ∃ obj, Routes_params (Routes.mk "/users/42" [users_show]) = Ok obj
             ∧ dom obj = list_to_set ["id"]
             ∧ ∀ i p, ["id"] !! i = Some p → p ∉ drop (S i) ["id"] →
                      obj !! p = Some (captures !! i).
Proof.
  apply (proj1 (proj2 (Routes_params_spec (Routes.mk "/users/42" [users_show])))
           [] users_show [] (literals "/users/" ++ [RegExp.Capture])).
  - reflexivity.
  - constructor.
  - reflexivity.
  - reflexivity.
Defined.

(** * Further properties *)

(** ** What the resolver returns *)

Section resolved.
Implicit Types (g : Globals) (izzy : GlobalIzzyJs.t) (d : SerializedRoute.t)
  (params : option (list (string * string))) (qs : option URLSearchParams.t)
  (prefix : option string).

Lemma append_eq_nil s t : s +:+ t = "" → s = "" ∧ t = "".
Proof. by destruct s. Qed.

Lemma join_eq_nil sep p (rest : list string) :
  JsString.join sep (p :: rest) = "" → p = "".
Proof.
  destruct rest as [|q rest]; [done |]. rewrite join_cons.
  by intros [? _]%append_eq_nil.
Qed.

(** The query string is empty only for a query without entries. *)
Lemma URLSearchParams_toString_empty (query : URLSearchParams.t) :
  URLSearchParams.toString query = "" ↔ query = [].
Proof.
  split; [| by intros ->].
  destruct query as [|[k v] query]; [done |].
  unfold URLSearchParams.toString. rewrite fmap_cons.
  intros [_ [[=] _]%append_eq_nil]%join_eq_nil%append_eq_nil.
Qed.

Lemma append_nil_l_default prefix body :
  (if bool_decide (default "" prefix = "") then body else default "" prefix +:+ body)
  = default "" prefix +:+ body.
Proof. case_bool_decide as H; [by rewrite H | done]. Qed.

End resolved.

(** X1.  The resolver fails in three ways only, tried in this order: the
    registry is not there; no definition has the name; the definition
    found has a [params] list and no parameters are supplied.  In every
    other case it returns a route. *)
Theorem Route_constructor_outcome (g : Globals) (routeName : string)
    (params : option (list (string * string)))
    (qs : option URLSearchParams.t) (prefix : option string) :
  match Route_constructor g routeName params qs prefix with
  | Ok route =>
      ∃ izzy d,
        Route_izzy g = Ok izzy
        ∧ find_by_name routeName (GlobalIzzyJs.routes izzy) = Some d
        ∧ (SerializedRoute.params d = None ∨ is_Some params)
  | Err e =>
      (e = RegistryUnavailableError ∧ Route_izzy g = Err RegistryUnavailableError)
      ∨ (e = RouteNotFoundError routeName
         ∧ ∃ izzy, Route_izzy g = Ok izzy
                   ∧ find_by_name routeName (GlobalIzzyJs.routes izzy) = None)
      ∨ (∃ izzy d required,
           e = MissingParametersError routeName required
           ∧ Route_izzy g = Ok izzy
           ∧ find_by_name routeName (GlobalIzzyJs.routes izzy) = Some d
           ∧ SerializedRoute.params d = Some required
           ∧ params = None)
  end.
Proof.
  unfold Route_constructor.
  destruct (Route_izzy_total g) as [[izzy Hizzy] | Hizzy]; rewrite Hizzy; simpl; [| by left].
  destruct (find_by_name routeName _) as [d|] eqn:Hfind; [| right; left; eauto].
  destruct (SerializedRoute.params d) as [required|] eqn:Hreq.
  - destruct params as [supplied|]; simpl.
    + exists izzy, d. eauto.
    + right. right. by exists izzy, d, required.
  - simpl. exists izzy, d. eauto.
Qed.

(** X2.  The route that the resolver returns: its path is the prefix as
    given, then the path of the definition, with the supplied parameters
    substituted when the definition has a [params] list, then [?] and the
    serialised query when the query has at least one entry.  [url], [path]
    and the string value of the route are the same string, and the other
    properties are those of the definition. *)
Theorem Route_constructor_shape (g : Globals) (izzy : GlobalIzzyJs.t)
    (d : SerializedRoute.t) (routeName : string)
    (params : option (list (string * string)))
    (qs : option URLSearchParams.t) (prefix : option string) (route : Route.t) :
  Route_izzy g = Ok izzy →
  find_by_name routeName (GlobalIzzyJs.routes izzy) = Some d →
  Route_constructor g routeName params qs prefix = Ok route →
  Route.path route
  = default "" prefix
    +:+ match SerializedRoute.params d, params with
        | Some _, Some supplied => Route_replaceRouteParams (SerializedRoute.path d) supplied
        | _, _ => SerializedRoute.path d
        end
    +:+ match default [] qs with
        | [] => ""
        | query => "?" +:+ URLSearchParams.toString query
        end
  ∧ Route.url route = Route.path route
  ∧ toString (IsRoute route) = Route.path route
  ∧ Route.name route = Some routeName
  ∧ Route.method route = SerializedRoute.method d
  ∧ Route.pattern route = SerializedRoute.path d
  ∧ Route.params route = SerializedRoute.params d
  ∧ Route.qs route = default [] qs.
Proof.
  intros Hizzy Hfind. unfold Route_constructor. rewrite Hizzy. simpl. rewrite Hfind.
  destruct (find_by_name_Some _ _ _ Hfind) as [_ Hname].
  set (query := default [] qs).
  assert (∀ body,
            (if bool_decide (URLSearchParams.toString query = "") then body
             else body +:+ "?" +:+ URLSearchParams.toString query)
            = body +:+ match query with
                       | [] => ""
                       | _ => "?" +:+ URLSearchParams.toString query
                       end) as Hquery.
  { intros body. case_bool_decide as Hempty.
    - apply URLSearchParams_toString_empty in Hempty as ->. by rewrite append_nil_r.
    - destruct query; [done | done]. }
  destruct (SerializedRoute.params d) as [required|]; [destruct params as [supplied|] |];
    simpl; [| done |]; intros [= <-]; simpl;
    rewrite append_nil_l_default, Hquery; clear Hquery; clearbody query; by destruct query.
Qed.

Lemma Route_constructor_shape_witness :
  Route.path users_42_page = "/api/users/42?page=1"
  ∧ Route.url users_42_page = Route.path users_42_page.
Proof.
  destruct (Route_constructor_shape scenario (GlobalIzzyJs.mk [users_show] "/users/42")
              users_show "users.show" (Some [("id", "42")]) (Some [("page", "1")])
              (Some "/api") users_42_page eq_refl eq_refl eq_refl) as (H1 & H2 & _).
  split; [exact H1 | exact H2].
Defined.

(** X3.  [has] and the resolver agree: for an instance that holds the
    route list of the registry and a name without wildcard, [has(name)]
    is true exactly when the lookup of the resolver finds a definition,
    and false exactly when resolving the name fails with the
    route-not-found error. *)
Theorem Routes_has_iff_found (g : Globals) (izzy : GlobalIzzyJs.t) (this : Routes.t)
    (routeName : string) (params : option (list (string * string)))
    (qs : option URLSearchParams.t) (prefix : option string) :
  JsString.includes "*" routeName = false →
  Route_izzy g = Ok izzy →
  Routes.routes this = GlobalIzzyJs.routes izzy →
  (Routes_has this routeName = Ok true
   ↔ is_Some (find_by_name routeName (GlobalIzzyJs.routes izzy)))
  ∧ (Routes_has this routeName = Ok false
     ↔ Route_constructor g routeName params qs prefix = Err (RouteNotFoundError routeName)).
Proof.
  intros Hstar Hizzy Hroutes. rewrite Routes_has_exact, Hroutes by done.
  assert (existsb (name_satisfies (λ n, bool_decide (n = routeName)))
            (GlobalIzzyJs.routes izzy) = true
          ↔ is_Some (find_by_name routeName (GlobalIzzyJs.routes izzy))) as Hhas.
  { rewrite existsb_name_satisfies. split.
    - intros (d & n & Hd & Hn & ->%bool_decide_eq_true).
      destruct (find_by_name routeName _) eqn:Hfind; [done |].
      by destruct (proj1 (find_by_name_None _ _) Hfind d Hd).
    - intros [d [Hd Hn]%find_by_name_Some]. exists d, routeName.
      by rewrite bool_decide_eq_true. }
  split.
  - split; [intros [= Hb]; by apply Hhas | intros Hfind; f_equal; by apply Hhas].
  - split.
    + intros [= Hb]. apply (Route_constructor_not_found g izzy); [done |].
      destruct (find_by_name routeName _) eqn:Hfind; [| done].
      rewrite (proj2 Hhas) in Hb; [done | by eexists].
    + unfold Route_constructor. rewrite Hizzy. simpl.
      destruct (find_by_name routeName _) as [d|] eqn:Hfind.
      * destruct (SerializedRoute.params d); [destruct params |]; done.
      * intros _. f_equal. destruct (existsb _ _); [| done].
        by destruct (proj1 Hhas eq_refl).
Qed.

Lemma Routes_has_iff_found_witness :
  Routes_has (Routes.mk "/users/42" [users_show]) "users.edit" = Ok false
  ↔ Route_constructor scenario "users.edit" None None None
    = Err (RouteNotFoundError "users.edit").
Proof.
  apply (proj2 (Routes_has_iff_found scenario (GlobalIzzyJs.mk [users_show] "/users/42")
                  (Routes.mk "/users/42" [users_show]) "users.edit" None None None
                  eq_refl eq_refl eq_refl)).
Defined.

(** X4.  Every member of a group is recognised: when some definition is
    named [group.] followed by anything, for a plain [group],
    [has("group.*")] is true. *)
Theorem Routes_has_group_member (this : Routes.t) (d : SerializedRoute.t)
    (group rest : string) :
  plain group = true →
  d ∈ Routes.routes this →
  SerializedRoute.name d = Some (group +:+ "." +:+ rest) →
  Routes_has this (group +:+ ".*") = Ok true.
Proof.
  intros Hgroup Hd Hname.
  erewrite Routes_has_wildcard;
    [| apply includes_star_group | by apply compile_group_wildcard].
  f_equal. apply existsb_name_satisfies. exists d, (group +:+ "." +:+ rest).
  repeat split; [done.. |]. apply test_group_wildcard.
  by exists "", "."%char, rest.
Qed.

Lemma Routes_has_group_member_witness :
  Routes_has (Routes.mk "/users/42" [home; users_show]) ("users" +:+ ".*") = Ok true.
Proof.
  apply (Routes_has_group_member (Routes.mk "/users/42" [home; users_show]) users_show
           "users" "show").
  - reflexivity.
  - apply list_elem_of_In. right. left. reflexivity.
  - reflexivity.
Defined.

(** X5.  What the accessor depends on.  In a browser its result is made of
    the routes of the binding [__izzy_route__] of [window] and of
    [window.location.pathname]: the [current] of the registry object and
    [globalThis] are not read.  Elsewhere its result is the registry
    object bound to [__izzy_route__] in [globalThis]: [window] and the
    location are not read. *)
Theorem Route_izzy_depends_on (g1 g2 : Globals) :
  isBrowser g1 = isBrowser g2 →
  (isBrowser g1 = true →
   GlobalIzzyJs.routes <$> window g1 !! "__izzy_route__"
   = GlobalIzzyJs.routes <$> window g2 !! "__izzy_route__"
   ∧ location_pathname g1 = location_pathname g2) →
  (isBrowser g1 = false →
   globalThis g1 !! "__izzy_route__" = globalThis g2 !! "__izzy_route__") →
  Route_izzy g1 = Route_izzy g2.
Proof.
  intros Hb Hbrowser Hserver. unfold Route_izzy. rewrite <- Hb.
  destruct (isBrowser g1).
  - destruct Hbrowser as [Hroutes ->]; [done |].
    destruct (window g1 !! _), (window g2 !! _); simpl in Hroutes; congruence.
  - by rewrite Hserver.
Qed.

Lemma Route_izzy_depends_on_witness :
  Route_izzy (browser [users_show] "stale" "/users/42")
  = Route_izzy (browser [users_show] "" "/users/42").
Proof.
  apply Route_izzy_depends_on.
  - reflexivity.
  - intros _. split; reflexivity.
  - discriminate.
Defined.

(** ** The provider *)

Section ready.
Context {RouteJSON : Type} (serializeRoute : RouteJSON → SerializedRoute.t).
Implicit Types (routes : list (string * list RouteJSON)) (g : Globals).

Lemma find_root_none routes :
  Forall (λ entry, entry.1 ≠ "root") routes →
  List.find (λ route, bool_decide (route.1 = "root")) (routesJSON_of serializeRoute routes)
  = None.
Proof.
  induction 1 as [|entry routes Hentry _ IH]; simpl; [done |].
  by rewrite bool_decide_eq_false_2.
Qed.

Lemma find_root_first routes (before after : list (string * list RouteJSON)) rs :
  routes = before ++ ("root", rs) :: after →
  Forall (λ entry, entry.1 ≠ "root") before →
  List.find (λ route, bool_decide (route.1 = "root")) (routesJSON_of serializeRoute routes)
  = Some ("root", serializeRoute <$> rs).
Proof.
  intros -> Hbefore. induction Hbefore as [|entry before Hentry _ IH]; simpl; [done |].
  by rewrite bool_decide_eq_false_2.
Qed.

End ready.



(** ** The query string *)

Section query.
Implicit Types (s t : string) (c : ascii) (query : URLSearchParams.t).

Lemma all_query_safe_append s t :
  all_query_safe (s +:+ t) = all_query_safe s && all_query_safe t.
Proof. induction s as [|c s IH]; simpl; [done |]. by rewrite IH, andb_assoc. Qed.

Lemma serialize_code_unit_safe c :
  all_query_safe (URLSearchParams.serialize_code_unit c) = true.
Proof. destruct c as [[] [] [] [] [] [] [] []]; reflexivity. Qed.

Lemma serialize_string_safe s : all_query_safe (URLSearchParams.serialize_string s) = true.
Proof.
  induction s as [|c s IH]; simpl; [done |].
  by rewrite all_query_safe_append, serialize_code_unit_safe, IH.
Qed.

Lemma all_query_safe_without s c :
  all_query_safe s = true → is_query_safe c = false → without c s = true.
Proof.
  intros Hs Hc. induction s as [|d s IH]; simpl in *; [done |].
  apply andb_prop in Hs as [Hd Hs]. rewrite IH by done.
  destruct (Ascii.eqb_spec d c) as [-> | _]; [congruence | done].
Qed.

End query.

(** X7.  The serialised query is safe to append: it is made of ASCII
    letters and digits and of [* - . _ + % = &] only, so it holds no [?],
    [#], [/] or space, whatever the keys and the values are. *)
Theorem URLSearchParams_toString_safe (query : URLSearchParams.t) :
  all_query_safe (URLSearchParams.toString query) = true
  ∧ ∀ c, is_query_safe c = false → without c (URLSearchParams.toString query) = true.
Proof.
  assert (all_query_safe (URLSearchParams.toString query) = true) as Hsafe.
  { unfold URLSearchParams.toString.
    induction query as [|[k v] query IH]; [done |].
    assert (all_query_safe
              (URLSearchParams.serialize_string k +:+ "=" +:+ URLSearchParams.serialize_string v)
            = true) as Hentry
      by (by rewrite !all_query_safe_append, !serialize_string_safe).
    destruct query as [|kv query]; [done |].
    rewrite !fmap_cons, join_cons. rewrite !fmap_cons in IH.
    cbv beta iota delta [fst snd] in *.
    rewrite all_query_safe_append, Hentry. by rewrite all_query_safe_append, IH. }
  split; [done |]. intros c Hc. by apply all_query_safe_without.
Qed.

Lemma URLSearchParams_toString_safe_witness :
  without "?" (URLSearchParams.toString [("q", "a?b c/d#e")]) = true.
Proof.
  apply (proj2 (URLSearchParams_toString_safe [("q", "a?b c/d#e")]) "?"%char).
  reflexivity.
Defined.

(** ** Resolving a path and reading its parameters back *)

Section round_trip.
Implicit Types (s t w : string) (segs : list Segment) (re : RegExp.t)
  (k : string → option (list string)).

Lemma pattern_path_cons seg seg' segs :
  pattern_path (seg :: seg' :: segs)
  = pattern_segment seg +:+ "/" +:+ pattern_path (seg' :: segs).
Proof. reflexivity. Qed.

Lemma instance_path_cons seg seg' segs :
  instance_path (seg :: seg' :: segs)
  = instance_segment seg +:+ "/" +:+ instance_path (seg' :: segs).
Proof. reflexivity. Qed.

(** Substitution on a tidy path, behind a text without [:]. *)
Lemma replaceRouteParams_segments segs s :
  Forall tidy segs → without ":" s = true →
  Route_replaceRouteParams (s +:+ pattern_path segs) (entries segs)
  = s +:+ instance_path segs.
Proof.
  intros Htidy. revert s.
  induction Htidy as [|seg segs Hseg Htidy IH]; intros s Hs; [done |].
  destruct segs as [|seg' segs].
  - destruct seg as [text | name value]; [done |].
    destruct Hseg as (_ & _ & _ & Hcolon & Hdollar).
    change (Route_replaceRouteParams (s +:+ (":" +:+ name)) [(name, value)] = s +:+ value).
    assert (s +:+ (":" +:+ name) = s +:+ (":" +:+ name) +:+ "") as ->
      by (by rewrite append_nil_r).
    rewrite replaceRouteParams_cons, replace_token by done.
    by rewrite append_nil_r.
  - rewrite pattern_path_cons, instance_path_cons.
    destruct seg as [text | name value]; simpl pattern_segment; simpl instance_segment.
    + destruct Hseg as (_ & Hcolon & _).
      change (entries (Fixed text :: seg' :: segs)) with (entries (seg' :: segs)).
      specialize (IH (s +:+ text +:+ "/")). rewrite !append_assoc in IH.
      apply IH. by rewrite !without_append, Hs, Hcolon.
    + destruct Hseg as (_ & _ & _ & Hcolon & Hdollar).
      change (entries (Param name value :: seg' :: segs))
        with ((name, value) :: entries (seg' :: segs)).
      rewrite replaceRouteParams_cons, replace_token by done.
      specialize (IH (s +:+ value +:+ "/")). rewrite !append_assoc in IH.
      apply IH. by rewrite !without_append, Hs, Hcolon.
Qed.

Lemma is_token_param name : is_token (":" +:+ name) = true.
Proof. apply (prefix_append ":" name). Qed.

Lemma is_token_fixed text : without ":" text = true → is_token text = false.
Proof.
  destruct text as [|c text]; [done |]. simpl.
  intros [Hc _]%andb_prop. apply negb_true_iff, Ascii.eqb_neq in Hc.
  apply (prefix_head ":" c "" text). congruence.
Qed.

Lemma pattern_segments_split segs :
  segs ≠ [] → Forall tidy segs →
  JsString.split "/" (pattern_path segs) = pattern_segment <$> segs.
Proof.
  intros Hne Htidy. apply (split_join "/").
  - by destruct segs.
  - apply Forall_fmap. eapply Forall_impl; [done |].
    intros [text | name value]; simpl; [by intros (_ & _ & ?) | by intros (-> & _)].
Qed.

Lemma pattern_segments_regular segs :
  Forall tidy segs → regular (pattern_segment <$> segs).
Proof.
  intros Htidy. apply Forall_fmap. eapply Forall_impl; [done |].
  intros [text | name value]; simpl; [intros (? & _); by right | intros _; left].
  apply is_token_param.
Qed.

Lemma match_here_literals text re s :
  RegExp.match_here (literals text ++ re) (text +:+ s) = RegExp.match_here re s.
Proof.
  induction text as [|c text IH]; [done |].
  change (RegExp.match_here (RegExp.Atom (RegExp.Literal c) :: literals text ++ re)
            (String c (text +:+ s)) = RegExp.match_here re s).
  simpl. by rewrite Ascii.eqb_refl.
Qed.

(** A group takes a whole segment when the segment ends the string or a
    slash follows, and what follows matches. *)
Lemma match_capture_segment k taken w s r :
  w ≠ "" → without "/" w = true →
  (s = "" ∨ ∃ s', s = String "/" s') →
  k s = Some r →
  RegExp.match_capture k taken (w +:+ s) = Some ((taken +:+ w) :: r).
Proof.
  intros Hne Hw Hs Hk. revert taken.
  induction w as [|c w IH]; intros taken; [done |].
  simpl in Hw. apply andb_prop in Hw as [Hc Hw].
  change (String c w +:+ s) with (String c (w +:+ s)). simpl. rewrite Hc.
  destruct w as [|d w].
  - change ("" +:+ s) with s.
    assert (RegExp.match_capture k (taken +:+ String c "") s = None) as ->
      by (destruct Hs as [-> | [s' ->]]; done).
    by rewrite Hk.
  - rewrite IH by done. by rewrite append_assoc.
Qed.

Lemma match_here_instance segs :
  segs ≠ [] → Forall tidy segs →
  RegExp.match_here (path_terms (pattern_segment <$> segs)) (instance_path segs)
  = Some ((entries segs).*2).
Proof.
  intros Hne Htidy. induction Htidy as [|seg segs Hseg Htidy IH]; [done |]. clear Hne.
  destruct segs as [|seg' segs].
  - destruct seg as [text | name value]; simpl in Hseg.
    + destruct Hseg as (_ & Hcolon & _).
      change (RegExp.match_here (segment_terms text) text = Some []).
      unfold segment_terms. rewrite is_token_fixed by done.
      replace (RegExp.match_here (literals text) text)
        with (RegExp.match_here (literals text ++ []) (text +:+ ""))
        by (by rewrite app_nil_r, append_nil_r).
      by rewrite match_here_literals.
    + destruct Hseg as (_ & Hvalue & Hslash & _).
      change (RegExp.match_here (segment_terms (":" +:+ name)) value = Some [value]).
      unfold segment_terms. rewrite is_token_param.
      replace (RegExp.match_here [RegExp.Capture] value)
        with (RegExp.match_capture (RegExp.match_here []) "" (value +:+ ""))
        by (by rewrite append_nil_r).
      by apply (match_capture_segment _ "" value "" []); [.. | left |].
  - specialize (IH ltac:(done)). rewrite instance_path_cons.
    change (path_terms (pattern_segment <$> seg :: seg' :: segs))
      with (segment_terms (pattern_segment seg)
              ++ RegExp.Atom (RegExp.Literal "/")
              :: path_terms (pattern_segment <$> seg' :: segs)).
    destruct seg as [text | name value]; simpl in Hseg;
      simpl pattern_segment; simpl instance_segment.
    + destruct Hseg as (_ & Hcolon & _).
      unfold segment_terms. rewrite is_token_fixed by done.
      rewrite match_here_literals. simpl RegExp.match_here. exact IH.
    + destruct Hseg as (_ & Hvalue & Hslash & _).
      unfold segment_terms.
      rewrite (is_token_param name : is_token (String ":" name) = true).
      change (RegExp.match_capture
                (RegExp.match_here (RegExp.Atom (RegExp.Literal "/")
                                    :: path_terms (pattern_segment <$> seg' :: segs)))
                "" (value +:+ String "/" (instance_path (seg' :: segs)))
              = Some (value :: (entries (seg' :: segs)).*2)).
      apply (match_capture_segment _ "" value); [done | done | right; eauto |].
      simpl RegExp.match_here. exact IH.
Qed.

Lemma exec_at_start re s captures :
  RegExp.match_here re s = Some captures → RegExp.exec re s = Some captures.
Proof. intros H. destruct s; simpl; by rewrite H. Qed.

End round_trip.

Lemma NoDup_not_later {A} (l : list A) i x :
  NoDup l → l !! i = Some x → x ∉ drop (S i) l.
Proof.
  intros Hl Hi [j Hj]%list_elem_of_lookup. rewrite lookup_drop in Hj.
  pose proof (NoDup_lookup _ _ _ _ Hl Hi Hj). lia.
Qed.



(** X9.  A definition without a name is invisible to [has], with or
    without a wildcard, and to the lookup of the resolver: taking it out
    of the list changes neither. *)
Theorem unnamed_definitions_are_invisible (currentRoute routeName : string)
    (before after : list SerializedRoute.t) (d : SerializedRoute.t) :
  SerializedRoute.name d = None →
  Routes_has (Routes.mk currentRoute (before ++ d :: after)) routeName
  = Routes_has (Routes.mk currentRoute (before ++ after)) routeName
  ∧ find_by_name routeName (before ++ d :: after) = find_by_name routeName (before ++ after).
Proof.
  intros Hname. split.
  - unfold Routes_has. simpl.
    assert (∀ p, existsb (name_satisfies p) (before ++ d :: after)
                 = existsb (name_satisfies p) (before ++ after)) as Hsame.
    { intros p. rewrite !existsb_app. simpl. unfold name_satisfies at 2. by rewrite Hname. }
    destruct (JsString.includes "*" routeName); [| by rewrite Hsame].
    destruct (RegExp_new _); simpl; [by rewrite Hsame | done].
  - unfold find_by_name. induction before as [|r before IH]; simpl.
    + by rewrite Hname, bool_decide_eq_false_2.
    + by rewrite IH.
Qed.

Lemma unnamed_definitions_are_invisible_witness :
  Routes_has (Routes.mk "/" [home; unnamed; users_show]) "users.*"
  = Routes_has (Routes.mk "/" [home; users_show]) "users.*"
  ∧ find_by_name "users.*" [home; unnamed; users_show]
    = find_by_name "users.*" [home; users_show].
Proof.
  apply (unnamed_definitions_are_invisible "/" "users.*" [home] [users_show] unnamed).
  reflexivity.
Defined.

(** X10.  The expression of a path without parameters is the path itself:
    splitting at the slashes and joining again gives the string back, so
    the text of such a path is the source of its expression as it is. *)
Theorem path_source_static (path : string) :
  Forall (λ p, is_token p = false) (JsString.split "/" path) →
  path_source path = path.
Proof.
  intros Hstatic. rewrite <- (join_split "/" path) at 2. unfold path_source.
  f_equal. induction Hstatic as [|p segments Hp _ IH]; [done |].
  rewrite fmap_cons, IH. f_equal. unfold is_token in Hp. by rewrite Hp.
Qed.

Lemma path_source_static_witness : path_source "/users/new" = "/users/new".
Proof.
  apply path_source_static. repeat constructor.
Defined.
